(** * expandvars: shell-style parameter expansion

    A shallow embedding of [expandvars.py] and the properties of its
    expansion state machine.

    Data model.
    - A Python [str] and a Python list of one-character strings are both
      [list ascii]; a character is read as the code point U+0000..U+00FF
      with the same number, and the classification predicates below follow
      the interpreter's tables on that range.  Inputs with code points
      above U+00FF are outside the model, and so is the interpreter's
      configurable limit on the number of digits [int] accepts.
    - [os.environ] is a finite map from names to values ([gmap]); what the
      operating system refuses as a variable name is outside the model.
    - The [Expander] object's fields [_result] and [_buffr], the global
      [environ] and the shared iterator [variter] form one explicit state
      that every method threads through a small state-and-error monad.
    - Python's recursion and [while] loops are bounded by a fuel argument;
      [OutOfFuel] is the only outcome that does not exist in Python, and
      [Expander_total] shows that the fuel [expandvars] supplies is never
      used up. *)

From Stdlib Require Import ZArith Ascii String List Bool Lia.
From stdpp Require Import base option list gmap strings.
Import ListNotations.

Local Open Scope Z_scope.

(** Python string literals, written as Rocq string literals. *)
Abbreviation lit := list_ascii_of_string.

(* ===================================================================== *)
(** ** Characters *)
(* ===================================================================== *)

Module Char.

Definition code (c : ascii) : N := N_of_ascii c.

Definition between (lo hi : N) (c : ascii) : bool :=
  ((lo <=? code c) && (code c <=? hi))%N.

Definition at_code (n : N) (c : ascii) : bool := (code c =? n)%N.

(** [c.isspace()], also the set that [str.strip()] removes. *)
Definition isspace (c : ascii) : bool :=
  between 9 13 c || between 28 32 c || at_code 133 c || at_code 160 c.

(** [c.isdecimal()]: general category Nd. *)
Definition isdecimal (c : ascii) : bool := between 48 57 c.

(** [c.isdigit()]: the decimals and the superscript digits. *)
Definition isdigit (c : ascii) : bool :=
  isdecimal c || between 178 179 c || at_code 185 c.

(** [c.isnumeric()]: the digits and the vulgar fractions. *)
Definition isnumeric (c : ascii) : bool :=
  isdigit c || between 188 190 c.

(** [c.isalpha()]: general categories Lu, Ll, Lt, Lm, Lo. *)
Definition isalpha (c : ascii) : bool :=
  between 65 90 c || between 97 122 c
  || at_code 170 c || at_code 181 c || at_code 186 c
  || between 192 214 c || between 216 246 c || between 248 255 c.

(** [c.isalnum()]. *)
Definition isalnum (c : ascii) : bool :=
  isalpha c || isdecimal c || isdigit c || isnumeric c.

(** The characters [int()] skips around a literal.  U+001C..U+001F are
    white space for [strip] but not for [int]. *)
Definition isspace_int (c : ascii) : bool :=
  between 9 13 c || at_code 32 c || at_code 133 c || at_code 160 c.

Definition digit_value (c : ascii) : option Z :=
  if isdecimal c then Some (Z.of_N (code c) - 48) else None.

End Char.

(* ===================================================================== *)
(** ** The [str] methods the program uses *)
(* ===================================================================== *)

Module Str.

Definition is_empty (s : list ascii) : bool :=
  match s with [] => true | _ => false end.

(** [c in s] for a one-character [c]. *)
Definition contains (c : ascii) (s : list ascii) : bool :=
  existsb (Ascii.eqb c) s.

(** [s.startswith(c)] for a one-character [c]. *)
Definition startswith (c : ascii) (s : list ascii) : bool :=
  match s with
  | [] => false
  | d :: _ => Ascii.eqb d c
  end.

(** [s.split(c, 1)] when [c in s]: the text before the first [c] and the
    text after it.  (Without a [c] the pair is [(s, [])]; the program only
    splits after it has tested [c in s].) *)
Fixpoint split1 (c : ascii) (s : list ascii) : list ascii * list ascii :=
  match s with
  | [] => ([], [])
  | d :: s' =>
      if Ascii.eqb d c then ([], s')
      else let '(x, y) := split1 c s' in (d :: x, y)
  end.

Fixpoint lstrip_by (sp : ascii -> bool) (s : list ascii) : list ascii :=
  match s with
  | [] => []
  | c :: s' => if sp c then lstrip_by sp s' else s
  end.

Fixpoint rstrip_by (sp : ascii -> bool) (s : list ascii) : list ascii :=
  match s with
  | [] => []
  | c :: s' =>
      match rstrip_by sp s' with
      | [] => if sp c then [] else [c]
      | t => c :: t
      end
  end.

Definition strip_by (sp : ascii -> bool) (s : list ascii) : list ascii :=
  rstrip_by sp (lstrip_by sp s).

Definition lstrip := lstrip_by Char.isspace.
Definition rstrip := rstrip_by Char.isspace.

(** [s.strip()]. *)
Definition strip := strip_by Char.isspace.

Definition all_chars (p : ascii -> bool) (s : list ascii) : bool :=
  negb (is_empty s) && forallb p s.

(** [s.isalnum()], [s.isalpha()], [s.isdigit()]: false on the empty
    string. *)
Definition isalnum := all_chars Char.isalnum.
Definition isalpha := all_chars Char.isalpha.
Definition isdigit := all_chars Char.isdigit.

(** The digits of an integer literal after its first digit: decimal
    digits, each optionally preceded by a single underscore. *)
Fixpoint int_digits (acc : Z) (s : list ascii) : option Z :=
  match s with
  | [] => Some acc
  | c :: s' =>
      if Ascii.eqb c "_" then
        match s' with
        | [] => None
        | d :: s'' =>
            match Char.digit_value d with
            | Some v => int_digits (10 * acc + v) s''
            | None => None
            end
        end
      else
        match Char.digit_value c with
        | Some v => int_digits (10 * acc + v) s'
        | None => None
        end
  end.

Definition int_unsigned (s : list ascii) : option Z :=
  match s with
  | [] => None
  | d :: s' =>
      match Char.digit_value d with
      | Some v => int_digits v s'
      | None => None
      end
  end.

(** [int(s)]: [None] stands for the [ValueError] it raises. *)
Definition int (s : list ascii) : option Z :=
  match strip_by Char.isspace_int s with
  | [] => None
  | c :: s' =>
      if Ascii.eqb c "+" then int_unsigned s'
      else if Ascii.eqb c "-" then Z.opp <$> int_unsigned s'
      else int_unsigned (c :: s')
  end.

(** A slice bound, clamped as Python clamps it. *)
Definition clamp (len i : Z) : Z :=
  if i <? 0 then Z.max (i + len) 0 else Z.min i len.

(** [s[lo:hi]], either bound optional. *)
Definition slice (s : list ascii) (lo hi : option Z) : list ascii :=
  let len := Z.of_nat (length s) in
  let l := match lo with Some i => clamp len i | None => 0 end in
  let h := match hi with Some i => clamp len i | None => len end in
  take (Z.to_nat (h - l)) (drop (Z.to_nat l) s).

End Str.

(* ===================================================================== *)
(** ** State, outcomes and the monad of the methods *)
(* ===================================================================== *)

(** Every failure of the program is a [ValueError]; the constructors stand
    for its messages. *)
Inductive ValueError : Type :=
| BadSubstitution
    (** ["bad substitution"] *)
| OperandExpected (z : list ascii)
    (** ["FOO: z: syntax error: operand expected (error token is 'z')"] *)
| NegativeLength (z : Z)
    (** ["z: substring expression < 0"] *)
| UnterminatedBrace (buffr : list ascii)
    (** ["buffr: "{" was never closed."] *)
| InvalidLiteral (s : list ascii)
    (** ["invalid literal for int() with base 10: 's'"], raised by [int] *).

Record state : Type := mkState {
  _result : list ascii;
  _buffr : list ascii;
  environ : gmap (list ascii) (list ascii);
  variter : list ascii
}.

Inductive outcome (A : Type) : Type :=
| Ret (a : A)
| Raise (e : ValueError)
| OutOfFuel.
Arguments Ret {A} a.
Arguments Raise {A} e.
Arguments OutOfFuel {A}.

Definition M (A : Type) : Type := state -> outcome A * state.

Definition ret {A} (a : A) : M A := fun st => (Ret a, st).

Definition bind {A B} (m : M A) (k : A -> M B) : M B :=
  fun st =>
    match m st with
    | (Ret a, st') => k a st'
    | (Raise e, st') => (Raise e, st')
    | (OutOfFuel, st') => (OutOfFuel, st')
    end.

Definition raise {A} (e : ValueError) : M A := fun st => (Raise e, st).
Definition out_of_fuel {A} : M A := fun st => (OutOfFuel, st).

Declare Scope expander_scope.
Delimit Scope expander_scope with M.
Notation "x <- m ;; k" := (bind m (fun x => k))
  (at level 100, m at next level, right associativity) : expander_scope.
Notation "m ;; k" := (bind m (fun _ => k))
  (at level 100, right associativity) : expander_scope.
Local Open Scope expander_scope.

Definition get_buffr : M (list ascii) := fun st => (Ret (_buffr st), st).

(** [self._buffr.append(c)] *)
Definition buffr_append (c : ascii) : M unit := fun st =>
  (Ret tt, mkState (_result st) (_buffr st ++ [c]) (environ st) (variter st)).

(** [self._buffr.clear()] *)
Definition buffr_clear : M unit := fun st =>
  (Ret tt, mkState (_result st) [] (environ st) (variter st)).

(** [self._result.append(c)] *)
Definition result_append (c : ascii) : M unit := fun st =>
  (Ret tt, mkState (_result st ++ [c]) (_buffr st) (environ st) (variter st)).

(** [self._result.extend(s)] *)
Definition result_extend (s : list ascii) : M unit := fun st =>
  (Ret tt, mkState (_result st ++ s) (_buffr st) (environ st) (variter st)).

(** [environ.get(x, d)] *)
Definition environ_get (x d : list ascii) : M (list ascii) := fun st =>
  (Ret (default d (environ st !! x)), st).

(** [x in environ] *)
Definition environ_contains (x : list ascii) : M bool := fun st =>
  (Ret (bool_decide (is_Some (environ st !! x))), st).

(** [environ.update({x: y})] *)
Definition environ_update (x y : list ascii) : M unit := fun st =>
  (Ret tt, mkState (_result st) (_buffr st) (<[x := y]> (environ st)) (variter st)).

(** [next(variter)]; [None] stands for [StopIteration]. *)
Definition next : M (option ascii) := fun st =>
  match variter st with
  | [] => (Ret None, st)
  | c :: it => (Ret (Some c), mkState (_result st) (_buffr st) (environ st) it)
  end.

Definition when (b : bool) (m : M unit) : M unit := if b then m else ret tt.

(* ===================================================================== *)
(** ** The program *)
(* ===================================================================== *)

Definition _valid_char (char : ascii) : bool :=
  Char.isalnum char || Ascii.eqb char "_".

Definition _isint (val : list ascii) : bool :=
  match Str.int val with Some _ => true | None => false end.

(** [int(s)] as a statement: the value, or the [ValueError] of [int]. *)
Definition int (s : list ascii) : M Z :=
  match Str.int s with
  | Some n => ret n
  | None => raise (InvalidLiteral s)
  end.

Definition process_buffr : M unit :=
  buffr <- get_buffr;;
  if Str.is_empty buffr then ret tt
  else if negb (Str.contains ":" buffr) then
    v <- environ_get buffr [];;
    result_extend v;;
    buffr_clear
  else
    let '(x, y) := Str.split1 ":" buffr in
    let x := Str.strip x in
    let y := Str.strip y in
    if Str.startswith "+" y then
      let y := drop 1 y in
      b <- environ_contains x;;
      when b (result_extend y);;
      buffr_clear
    else if Str.startswith "-" y || Str.startswith "=" y then
      let _y := take 1 y in
      let y := drop 1 y in
      v <- environ_get x y;;
      result_extend v;;
      b <- environ_contains x;;
      when (Str.startswith "=" _y && negb b) (environ_update x y);;
      buffr_clear
    else if negb (Str.contains ":" y) then
      if negb (Str.isalnum y) then raise BadSubstitution
      else if negb (_isint y) then
        v <- environ_get x [];;
        result_extend v;;
        buffr_clear
      else
        n <- int y;;
        v <- environ_get x [];;
        result_extend (Str.slice v (Some n) None);;
        buffr_clear
    else
      let '(y, z) := Str.split1 ":" y in
      let y := Str.strip y in
      let z := Str.strip z in
      if Str.is_empty z || Str.isalpha z then buffr_clear
      else if negb (Str.isalnum z) && negb (_isint z) then
        raise (OperandExpected z)
      else
        z <- int z;;
        if z <? 0 then raise (NegativeLength z)
        else if Str.is_empty y || negb (Str.isdigit y) then
          v <- environ_get x [];;
          result_extend (Str.slice v None (Some z));;
          buffr_clear
        else
          y <- int y;;
          v <- environ_get x [];;
          result_extend (Str.slice v (Some y) (Some (y + z)));;
          buffr_clear.

Definition _next_or_done : M (option ascii) :=
  c <- next;;
  match c with
  | Some c => ret (Some c)
  | None => process_buffr;; ret None
  end.

(** The [while _valid_char(c)] loop of [expand_var].  [None] is the
    [return] inside the loop; [Some c] leaves the loop with [c]. *)
Fixpoint expand_var_while (fuel : nat) (c : ascii) : M (option ascii) :=
  match fuel with
  | O => out_of_fuel
  | S fuel =>
      if _valid_char c then
        buffr_append c;;
        c <- _next_or_done;;
        match c with
        | None => ret None
        | Some c => expand_var_while fuel c
        end
      else ret (Some c)
  end.

(** The [try] block of [expand_modifier_var]: read up to the closing
    brace, or raise when the input ends first. *)
Fixpoint expand_modifier_var_while (fuel : nat) : M unit :=
  match fuel with
  | O => out_of_fuel
  | S fuel =>
      c <- next;;
      match c with
      | None => buffr <- get_buffr;; raise (UnterminatedBrace buffr)
      | Some c =>
          if Ascii.eqb c "}" then ret tt
          else buffr_append c;; expand_modifier_var_while fuel
      end
  end.

(** The [while c and c != "$"] loop of [expand_val]; it returns the [c]
    it stops on. *)
Fixpoint expand_val_while (fuel : nat) (c : option ascii) : M (option ascii) :=
  match fuel with
  | O => out_of_fuel
  | S fuel =>
      match c with
      | Some ch =>
          if negb (Ascii.eqb ch "$") then
            result_append ch;;
            c <- _next_or_done;;
            expand_val_while fuel c
          else ret c
      | None => ret c
      end
  end.

Fixpoint expand_var (fuel : nat) : M unit :=
  match fuel with
  | O => out_of_fuel
  | S fuel =>
      buffr <- get_buffr;;
      when (negb (Str.is_empty buffr)) process_buffr;;
      c <- _next_or_done;;
      match c with
      | None => result_append "$"
      | Some c =>
          if Ascii.eqb c "{" then expand_modifier_var fuel
          else
            c <- expand_var_while fuel c;;
            match c with
            | None => ret tt
            | Some c =>
                process_buffr;;
                when (Ascii.eqb c "$") (expand_var fuel);;
                expand_val fuel (Some c)
            end
      end
  end
with expand_modifier_var (fuel : nat) : M unit :=
  match fuel with
  | O => out_of_fuel
  | S fuel =>
      buffr <- get_buffr;;
      when (negb (Str.is_empty buffr)) process_buffr;;
      expand_modifier_var_while fuel;;
      c <- _next_or_done;;
      match c with
      | None => ret tt
      | Some c =>
          when (Ascii.eqb c "$") (expand_var fuel);;
          expand_val fuel (Some c)
      end
  end
with expand_val (fuel : nat) (c : option ascii) : M unit :=
  match fuel with
  | O => out_of_fuel
  | S fuel =>
      buffr <- get_buffr;;
      when (negb (Str.is_empty buffr)) process_buffr;;
      c <- expand_val_while fuel c;;
      match c with
      | None => ret tt
      | Some _ => expand_var fuel
      end
  end.

(** [Expander.__init__], run on fresh fields with [fuel] for the calls. *)
Definition Expander_init (fuel : nat) (vars_ : list ascii) : M unit :=
  match vars_ with
  | [] => ret tt
  | c :: it =>
      (fun st => (Ret tt, mkState (_result st) (_buffr st) (environ st) it));;
      if Ascii.eqb c "$" then expand_var fuel
      else expand_val fuel (Some c)
  end.

(** The [result] property. *)
Definition result (st : state) : list ascii := _result st.

(** What the caller of a finished constructor sees: its [result] or its
    exception, and the environment. *)
Definition finish (r : outcome unit * state)
  : outcome (list ascii) * gmap (list ascii) (list ascii) :=
  match r with
  | (Ret _, st) => (Ret (result st), environ st)
  | (Raise e, st) => (Raise e, environ st)
  | (OutOfFuel, st) => (OutOfFuel, environ st)
  end.

Definition fuel_for (vars_ : list ascii) : nat :=
  S (S (length vars_ + length vars_)).

(** [Expander(vars_)] against the environment [env]: the outcome of the
    constructor, the object's [result] when it returns, and the environment
    it leaves. *)
Definition Expander (vars_ : list ascii) (env : gmap (list ascii) (list ascii))
  : outcome (list ascii) * gmap (list ascii) (list ascii) :=
  finish (Expander_init (fuel_for vars_) vars_ (mkState [] [] env [])).

Definition expandvars (vars_ : list ascii) (env : gmap (list ascii) (list ascii))
  : outcome (list ascii) * gmap (list ascii) (list ascii) :=
  if negb (Str.startswith "$" vars_) then (Ret vars_, env)
  else Expander vars_ env.

(* ===================================================================== *)
(** ** Notions used in the statements *)
(* ===================================================================== *)

(** The state in which a lone braced reference is resolved. *)
Definition at_end (buffr : list ascii) env : state := mkState [] buffr env [].

(** The text that can stand for NAME in [${NAME:...}]: the name ends at the
    first colon and the reference at the first closing brace. *)
Definition braced_name (NAME : list ascii) : Prop :=
  Str.contains ":" NAME = false /\ Str.contains "}" NAME = false.

(** The text that can stand for WORD: the reference ends at the first
    closing brace. *)
Definition braced_word (WORD : list ascii) : Prop :=
  Str.contains "}" WORD = false.

(** The text that can stand for OFFSET in [${NAME:OFFSET:LENGTH}]: it ends
    at the first colon, and a modifier that begins with ["+"], ["-"] or
    ["="] is not a slice. *)
Definition slice_offset (OFFSET : list ascii) : Prop :=
  Str.contains ":" OFFSET = false /\ Str.contains "}" OFFSET = false
  /\ Str.startswith "+" (Str.lstrip OFFSET) = false
  /\ Str.startswith "-" (Str.lstrip OFFSET) = false
  /\ Str.startswith "=" (Str.lstrip OFFSET) = false.

(** A non-empty string of the decimal digits [0]..[9]. *)
Definition decimal_digits (s : list ascii) : bool :=
  Str.all_chars Char.isdecimal s.

(** A variable name as [expand_var] reads it: one or more characters that
    [_valid_char] accepts. *)
Definition variable_name (s : list ascii) : Prop :=
  Str.all_chars _valid_char s = true.

(** The last branch of [process_buffr], on the tokens it has isolated. *)
Definition two_part (x y z : list ascii) : M unit :=
  if Str.is_empty z || Str.isalpha z then buffr_clear
  else if negb (Str.isalnum z) && negb (_isint z) then
    raise (OperandExpected z)
  else
    z <- int z;;
    if z <? 0 then raise (NegativeLength z)
    else if Str.is_empty y || negb (Str.isdigit y) then
      v <- environ_get x [];;
      result_extend (Str.slice v None (Some z));;
      buffr_clear
    else
      y <- int y;;
      v <- environ_get x [];;
      result_extend (Str.slice v (Some y) (Some (y + z)));;
      buffr_clear.

(** The branch of [process_buffr] for a modifier without a second colon. *)
Definition one_part (x y : list ascii) : M unit :=
  if negb (Str.isalnum y) then raise BadSubstitution
  else if negb (_isint y) then
    v <- environ_get x [];;
    result_extend v;;
    buffr_clear
  else
    n <- int y;;
    v <- environ_get x [];;
    result_extend (Str.slice v (Some n) None);;
    buffr_clear.

(** C2 as the specification words it: the text of WORD itself is the
    default, the text of NAME itself is the key. *)
Definition default_as_stated (NAME WORD : list ascii) env : Prop :=
  expandvars (lit "${" ++ NAME ++ lit ":-" ++ WORD ++ lit "}") env
  = (Ret (default WORD (env !! NAME)), env).


(** C4 as the specification words it. *)
Definition alternate_as_stated (NAME WORD : list ascii) env : Prop :=
  expandvars (lit "${" ++ NAME ++ lit ":+" ++ WORD ++ lit "}") env
  = (Ret (match env !! NAME with Some _ => WORD | None => [] end), env).




(** [post r Q]: the run [r] did not run out of fuel, and [Q] holds of what
    it returned if it returned. *)
Definition post {A} (r : outcome A * state) (Q : A -> state -> Prop) : Prop :=
  match r with
  | (Ret a, st) => Q a st
  | (Raise _, _) => True
  | (OutOfFuel, _) => False
  end.

(** A method has consumed the whole input when it returns. *)
Definition exhausted (r : outcome unit * state) : Prop :=
  post r (fun _ st => variter st = []).

(** The code points each classification accepts. *)
Definition code_points (p : ascii -> bool) : list nat :=
  filter (fun n => p (ascii_of_nat n)) (seq 0 256).

(** [holds r Q E]: [Q] holds of what the run [r] returned, and [E] holds of
    the state in which it stopped otherwise. *)
Definition holds {A} (r : outcome A * state)
    (Q : A -> state -> Prop) (E : state -> Prop) : Prop :=
  match r with
  | (Ret a, st) => Q a st
  | (Raise _, st) => E st
  | (OutOfFuel, st) => E st
  end.

(** A reference without a modifier: [$NAME] or [${NAME}]. *)
Inductive reference : Type :=
| Simple (name : list ascii)
| Braced (name : list ascii).

Definition reference_name (ref : reference) : list ascii :=
  match ref with Simple name => name | Braced name => name end.

(** The text of a reference after its sigil. *)
Definition reference_text (ref : reference) : list ascii :=
  match ref with
  | Simple name => name
  | Braced name => "{"%char :: name ++ ["}"%char]
  end.

(** An input made of references, each followed by literal text. *)
Fixpoint render (segs : list (reference * list ascii)) : list ascii :=
  match segs with
  | [] => []
  | (ref, text) :: segs => "$"%char :: reference_text ref ++ text ++ render segs
  end.

(** What the buffer [name] resolves to when it holds no colon: nothing when
    it is empty, [environ.get(name, "")] otherwise. *)
Definition lookup_value (env : gmap (list ascii) (list ascii))
    (name : list ascii) : list ascii :=
  if Str.is_empty name then [] else default [] (env !! name).

Fixpoint expansion (env : gmap (list ascii) (list ascii))
    (segs : list (reference * list ascii)) : list ascii :=
  match segs with
  | [] => []
  | (ref, text) :: segs =>
      lookup_value env (reference_name ref) ++ text ++ expansion env segs
  end.

(** The segments the state machine reads as they are written: the text
    holds no sigil; a simple name is made of name characters and the text
    after it begins with another character (not a brace if the name is
    empty); a braced name holds neither colon nor closing brace; and only
    the last text may be empty. *)
Definition well_formed_segment (ref : reference) (text : list ascii)
    (last : bool) : Prop :=
  Str.contains "$" text = false
  /\ match ref with
     | Simple name =>
         forallb _valid_char name = true
         /\ match text with
            | c :: _ => _valid_char c = false
                        /\ (name = [] -> Ascii.eqb c "{" = false)
            | [] => name <> []
            end
     | Braced name =>
         Str.contains ":" name = false /\ Str.contains "}" name = false
     end
  /\ (last = false -> text <> []).

Fixpoint well_formed (segs : list (reference * list ascii)) : Prop :=
  match segs with
  | [] => True
  | (ref, text) :: segs =>
      well_formed_segment ref text (Str.is_empty (render segs))
      /\ well_formed segs
  end.

(** A modifier that is none of the forms [+WORD], [-WORD], [=WORD]. *)
Definition no_word_form (OFFSET : list ascii) : Prop :=
  Str.startswith "+" (Str.strip OFFSET) = false
  /\ Str.startswith "-" (Str.strip OFFSET) = false
  /\ Str.startswith "=" (Str.strip OFFSET) = false.

(** The state [st] with [r] put before its result. *)
Definition shift (r : list ascii) (st : state) : state :=
  mkState (r ++ _result st) (_buffr st) (environ st) (variter st).

(** A statement that only appends to the result: what is already in the
    result changes nothing of what it does. *)
Definition framed {A} (m : M A) : Prop :=
  forall r st, m (shift r st) = ((m st).1, shift r (m st).2).

(** A run that ended as Python's does. *)
Definition finished {A} (r : outcome A * state) : Prop := r.1 <> OutOfFuel.

(** One expansion after another: the second runs in the environment the
    first one left and its result is put after the first one's; a failure
    of either is the failure of both. *)
Definition and_then
    (r : outcome (list ascii) * gmap (list ascii) (list ascii))
    (k : gmap (list ascii) (list ascii)
         -> outcome (list ascii) * gmap (list ascii) (list ascii))
  : outcome (list ascii) * gmap (list ascii) (list ascii) :=
  match r with
  | (Ret v, env) =>
      match k env with
      | (Ret w, env') => (Ret (v ++ w), env')
      | (Raise e, env') => (Raise e, env')
      | (OutOfFuel, env') => (OutOfFuel, env')
      end
  | (Raise e, env) => (Raise e, env)
  | (OutOfFuel, env) => (OutOfFuel, env)
  end.

(* ===================================================================== *)
(** ** Unfolding *)
(* ===================================================================== *)

#[local] Arguments Ascii.eqb !a !b.
#[local] Arguments bind {A B} m k st /.
#[local] Arguments ret {A} a st /.
#[local] Arguments raise {A} e st /.
#[local] Arguments out_of_fuel {A} st /.
#[local] Arguments get_buffr st /.
#[local] Arguments buffr_append c st /.
#[local] Arguments buffr_clear st /.
#[local] Arguments result_append c st /.
#[local] Arguments result_extend s st /.
#[local] Arguments environ_get x d st /.
#[local] Arguments environ_contains x st /.
#[local] Arguments environ_update x y st /.
#[local] Arguments next st /.
#[local] Arguments _next_or_done st /.
#[local] Arguments when b m st /.
#[local] Arguments int s st /.
#[local] Arguments process_buffr : simpl never.
#[local] Arguments expand_var : simpl never.
#[local] Arguments expand_modifier_var : simpl never.
#[local] Arguments expand_val : simpl never.
#[local] Arguments expand_var_while : simpl never.
#[local] Arguments expand_modifier_var_while : simpl never.
#[local] Arguments expand_val_while : simpl never.
#[local] Arguments _valid_char : simpl never.

(** The bodies of the fuelled methods, one Python call or loop iteration
    each. *)
Lemma expand_var_while_S (fuel : nat) (c : ascii) :
  expand_var_while (S fuel) c
  = if _valid_char c then
      buffr_append c;;
      c <- _next_or_done;;
      match c with
      | None => ret None
      | Some c => expand_var_while fuel c
      end
    else ret (Some c).
Proof. reflexivity. Qed.

Lemma expand_modifier_var_while_S (fuel : nat) :
  expand_modifier_var_while (S fuel)
  = (c <- next;;
     match c with
     | None => buffr <- get_buffr;; raise (UnterminatedBrace buffr)
     | Some c =>
         if Ascii.eqb c "}" then ret tt
         else buffr_append c;; expand_modifier_var_while fuel
     end).
Proof. reflexivity. Qed.

Lemma expand_val_while_S (fuel : nat) (c : option ascii) :
  expand_val_while (S fuel) c
  = match c with
    | Some ch =>
        if negb (Ascii.eqb ch "$") then
          result_append ch;;
          c <- _next_or_done;;
          expand_val_while fuel c
        else ret c
    | None => ret c
    end.
Proof. reflexivity. Qed.

Lemma expand_var_S (fuel : nat) :
  expand_var (S fuel)
  = (buffr <- get_buffr;;
     when (negb (Str.is_empty buffr)) process_buffr;;
     c <- _next_or_done;;
     match c with
     | None => result_append "$"
     | Some c =>
         if Ascii.eqb c "{" then expand_modifier_var fuel
         else
           c <- expand_var_while fuel c;;
           match c with
           | None => ret tt
           | Some c =>
               process_buffr;;
               when (Ascii.eqb c "$") (expand_var fuel);;
               expand_val fuel (Some c)
           end
     end).
Proof. reflexivity. Qed.

Lemma expand_modifier_var_S (fuel : nat) :
  expand_modifier_var (S fuel)
  = (buffr <- get_buffr;;
     when (negb (Str.is_empty buffr)) process_buffr;;
     expand_modifier_var_while fuel;;
     c <- _next_or_done;;
     match c with
     | None => ret tt
     | Some c =>
         when (Ascii.eqb c "$") (expand_var fuel);;
         expand_val fuel (Some c)
     end).
Proof. reflexivity. Qed.

Lemma expand_val_S (fuel : nat) (c : option ascii) :
  expand_val (S fuel) c
  = (buffr <- get_buffr;;
     when (negb (Str.is_empty buffr)) process_buffr;;
     c <- expand_val_while fuel c;;
     match c with
     | None => ret tt
     | Some _ => expand_var fuel
     end).
Proof. reflexivity. Qed.

(* ===================================================================== *)
(** ** The embedding at work *)
(* ===================================================================== *)

Example isspace_table :
  code_points Char.isspace = seq 9 5 ++ seq 28 5 ++ [133; 160]%nat.
Proof. by vm_compute. Qed.

Example isdigit_table :
  code_points Char.isdigit = seq 48 10 ++ [178; 179; 185]%nat.
Proof. by vm_compute. Qed.

Example isalpha_table :
  code_points Char.isalpha
  = seq 65 26 ++ seq 97 26 ++ [170; 181; 186]%nat
    ++ seq 192 23 ++ seq 216 31 ++ seq 248 8.
Proof. by vm_compute. Qed.

Example isalnum_table :
  code_points Char.isalnum
  = seq 48 10 ++ seq 65 26 ++ seq 97 26
    ++ [170; 178; 179; 181; 185; 186; 188; 189; 190]%nat
    ++ seq 192 23 ++ seq 216 31 ++ seq 248 8.
Proof. by vm_compute. Qed.

Example strip_ex : Str.strip (lit " a b  ") = lit "a b".
Proof. reflexivity. Qed.

Example int_ex :
  map Str.int [lit "1_0"; lit "_1"; lit "1_"; lit "1__0"; lit "+1"; lit "-1";
               lit "+ 1"; lit " 1 "; lit ""; lit "007"; lit "-0"; lit "0x10";
               lit "1a"; lit "--1"; lit "1 2"]
  = [Some 10; None; None; None; Some 1; Some (-1);
     None; Some 1; None; Some 7; Some 0; None;
     None; None; None].
Proof. reflexivity. Qed.

Example slice_ex :
  let s := lit "abcdef" in
  [Str.slice s (Some (-2)) None; Str.slice s (Some 10) None;
   Str.slice s (Some 2) (Some 5); Str.slice s None (Some 0);
   Str.slice s None (Some 3); Str.slice s (Some 7) (Some 9)]
  = [lit "ef"; lit ""; lit "cde"; lit ""; lit "abc"; lit ""].
Proof. reflexivity. Qed.

(** A bare sigil, and text without a reference after the first one. *)
Example expandvars_ex :
  let env : gmap (list ascii) (list ascii) :=
    {[lit "FOO" := lit "1"; lit "BAR" := lit "2"]} in
  expandvars (lit "$") env = (Ret (lit "$"), env)
  /\ expandvars (lit "$FOO bar $BAR.") env = (Ret (lit "1 bar 2."), env)
  /\ expandvars (lit "${X:=default}-$X") env
     = (Ret (lit "default-default"), <[lit "X" := lit "default"]> env)
  /\ expandvars (lit "${FOO:a}") env = (Ret (lit "1"), env)
  /\ expandvars (lit "${FOO:0:a}") env = (Ret (lit ""), env).
Proof. repeat split; by vm_compute. Qed.

(* ===================================================================== *)
(** ** Facts about the [str] methods *)
(* ===================================================================== *)

Section StrFacts.

Variable sp : ascii -> bool.

Lemma lstrip_by_spaces (w s : list ascii) :
  forallb sp w = true -> Str.lstrip_by sp (w ++ s) = Str.lstrip_by sp s.
Proof.
  induction w as [|c w IH]; simpl; [done|].
  intros [Hc Hw]%andb_true_iff. rewrite Hc. auto.
Qed.

Lemma lstrip_by_nonspace (c : ascii) (s : list ascii) :
  sp c = false -> Str.lstrip_by sp (c :: s) = c :: s.
Proof. intros Hc. simpl. by rewrite Hc. Qed.

Lemma lstrip_by_app_nonspace (a : list ascii) (c : ascii) (s : list ascii) :
  sp c = false ->
  Str.lstrip_by sp (a ++ c :: s) = Str.lstrip_by sp a ++ c :: s.
Proof.
  intros Hc. induction a as [|d a IH]; simpl.
  - by rewrite Hc.
  - destruct (sp d); [exact IH | done].
Qed.

Lemma rstrip_by_nonspace (c : ascii) (s : list ascii) :
  sp c = false -> Str.rstrip_by sp (c :: s) = c :: Str.rstrip_by sp s.
Proof. intros Hc. simpl. rewrite Hc. by destruct (Str.rstrip_by sp s). Qed.

Lemma rstrip_by_app_nonspace (a : list ascii) (c : ascii) (s : list ascii) :
  sp c = false ->
  Str.rstrip_by sp (a ++ c :: s) = a ++ c :: Str.rstrip_by sp s.
Proof.
  intros Hc. induction a as [|d a IH].
  - by apply rstrip_by_nonspace.
  - change ((d :: a) ++ c :: s) with (d :: (a ++ c :: s)).
    cbn [Str.rstrip_by]. rewrite IH. by destruct a.
Qed.

Lemma rstrip_by_spaces (w : list ascii) :
  forallb sp w = true -> Str.rstrip_by sp w = [].
Proof.
  induction w as [|c w IH]; simpl; [done|].
  intros [Hc Hw]%andb_true_iff. by rewrite IH, Hc.
Qed.

Lemma lstrip_by_idem (s : list ascii) :
  Str.lstrip_by sp (Str.lstrip_by sp s) = Str.lstrip_by sp s.
Proof.
  induction s as [|c s IH]; simpl; [done|].
  destruct (sp c) eqn:Hc; [exact IH|]. simpl. by rewrite Hc.
Qed.

Lemma rstrip_by_idem (s : list ascii) :
  Str.rstrip_by sp (Str.rstrip_by sp s) = Str.rstrip_by sp s.
Proof.
  induction s as [|c s IH]; simpl; [done|].
  destruct (Str.rstrip_by sp s) as [|d t] eqn:Ht.
  - destruct (sp c) eqn:Hc; simpl; [done|]. by rewrite Hc.
  - change (Str.rstrip_by sp (c :: d :: t))
      with (match Str.rstrip_by sp (d :: t) with
            | [] => if sp c then [] else [c]
            | t' => c :: t'
            end).
    by rewrite IH.
Qed.

Lemma lstrip_rstrip_by (s : list ascii) :
  Str.lstrip_by sp (Str.rstrip_by sp s) = Str.rstrip_by sp (Str.lstrip_by sp s).
Proof.
  induction s as [|c s IH]; [done|].
  destruct (sp c) eqn:Hc.
  - replace (Str.lstrip_by sp (c :: s)) with (Str.lstrip_by sp s)
      by (simpl; by rewrite Hc).
    rewrite <- IH. cbn [Str.rstrip_by].
    destruct (Str.rstrip_by sp s) as [|d t]; simpl; by rewrite Hc.
  - rewrite rstrip_by_nonspace, !lstrip_by_nonspace, rstrip_by_nonspace; done.
Qed.

Lemma strip_by_lstrip (s : list ascii) :
  Str.strip_by sp (Str.lstrip_by sp s) = Str.strip_by sp s.
Proof. unfold Str.strip_by. by rewrite lstrip_by_idem. Qed.

Lemma strip_by_rstrip (s : list ascii) :
  Str.strip_by sp (Str.rstrip_by sp s) = Str.strip_by sp s.
Proof.
  unfold Str.strip_by. by rewrite lstrip_rstrip_by, rstrip_by_idem.
Qed.

Lemma strip_by_spaces (w : list ascii) :
  forallb sp w = true -> Str.strip_by sp w = [].
Proof.
  intros Hw. unfold Str.strip_by.
  rewrite <- (app_nil_r w), lstrip_by_spaces by done. done.
Qed.

End StrFacts.

Lemma contains_app_sep (c : ascii) (a b : list ascii) :
  Str.contains c (a ++ c :: b) = true.
Proof.
  unfold Str.contains. rewrite existsb_app. simpl.
  rewrite Ascii.eqb_refl. by rewrite orb_true_r.
Qed.

Lemma is_empty_app_cons (c : ascii) (a b : list ascii) :
  Str.is_empty (a ++ c :: b) = false.
Proof. by destruct a. Qed.

Lemma split1_app (c : ascii) (a b : list ascii) :
  Str.contains c a = false -> Str.split1 c (a ++ c :: b) = (a, b).
Proof.
  induction a as [|d a IH]; simpl.
  - by rewrite Ascii.eqb_refl.
  - intros [Hd Ha]%orb_false_iff. rewrite Ascii.eqb_sym, Hd, IH; done.
Qed.

(* ===================================================================== *)
(** ** Reading a braced reference *)
(* ===================================================================== *)

Lemma expand_modifier_var_while_closed (body rest : list ascii) :
  Str.contains "}" body = false ->
  forall (fuel : nat) (r b : list ascii) env,
    (length body < fuel)%nat ->
    expand_modifier_var_while fuel (mkState r b env (body ++ "}"%char :: rest))
    = (Ret tt, mkState r (b ++ body) env rest).
Proof.
  induction body as [|c body IH]; intros Hbody fuel r b env Hfuel;
    (destruct fuel as [|fuel]; [simpl in Hfuel; lia|]);
    rewrite expand_modifier_var_while_S.
  - simpl. by rewrite app_nil_r.
  - simpl in Hbody. apply orb_false_iff in Hbody as [Hc Hbody].
    simpl. rewrite Ascii.eqb_sym, Hc. simpl.
    rewrite IH by (simpl in Hfuel; done || lia).
    by rewrite <- app_assoc.
Qed.


(** An input that is one braced reference resolves the text between the
    braces, once, at the end of the input. *)
Lemma expandvars_braced (body : list ascii) env :
  Str.contains "}" body = false ->
  expandvars (lit "${" ++ body ++ lit "}") env
  = finish (process_buffr (mkState [] body env [])).
Proof.
  intros Hbody. unfold expandvars, Expander.
  change (lit "${" ++ body ++ lit "}")
    with ("$"%char :: "{"%char :: body ++ ["}"%char]).
  assert (exists f, fuel_for ("$"%char :: "{"%char :: body ++ ["}"%char]) = S (S f)
                    /\ (length body < f)%nat) as (f & -> & Hf).
  { eexists. split; [reflexivity|]. simpl. rewrite length_app. lia. }
  simpl. rewrite expand_var_S. simpl.
  rewrite expand_modifier_var_S. simpl.
  rewrite expand_modifier_var_while_closed by done. simpl.
  destruct (process_buffr _) as [[[]|e|] st]; done.
Qed.

(* ===================================================================== *)
(** ** Resolving a reference with a modifier *)
(* ===================================================================== *)

Lemma contains_app (c : ascii) (a b : list ascii) :
  Str.contains c (a ++ b) = Str.contains c a || Str.contains c b.
Proof. apply existsb_app. Qed.

Lemma contains_spaces (c : ascii) (w : list ascii) :
  Char.isspace c = false -> forallb Char.isspace w = true ->
  Str.contains c w = false.
Proof.
  intros Hc. induction w as [|d w IH]; simpl; [done|].
  intros [Hd Hw]%andb_true_iff. rewrite IH by done.
  destruct (Ascii.eqb_spec c d) as [->|]; [congruence | done].
Qed.

(** Splits the buffer [NAME ++ ":" :: MODIFIER] inside [process_buffr]. *)
Ltac split_buffr :=
  unfold process_buffr, at_end; simpl;
  rewrite is_empty_app_cons, contains_app_sep; simpl;
  rewrite split1_app by done; simpl.

Lemma strip_cons_nonspace (c : ascii) (s : list ascii) :
  Char.isspace c = false -> Str.strip (c :: s) = c :: Str.rstrip s.
Proof.
  intros Hc. unfold Str.strip, Str.strip_by, Str.rstrip.
  by rewrite lstrip_by_nonspace, rstrip_by_nonspace.
Qed.

Lemma contains_body (sep : list ascii) (NAME WORD : list ascii) :
  Str.contains "}" NAME = false -> Str.contains "}" sep = false ->
  Str.contains "}" WORD = false ->
  Str.contains "}" (NAME ++ sep ++ WORD) = false.
Proof. intros HN Hs HW. by rewrite !contains_app, HN, Hs, HW. Qed.

Lemma process_buffr_default (NAME WORD : list ascii) env :
  Str.contains ":" NAME = false ->
  process_buffr (at_end (NAME ++ lit ":-" ++ WORD) env)
  = (Ret tt,
     mkState (default (Str.rstrip WORD) (env !! Str.strip NAME)) [] env []).
Proof.
  intros HN. split_buffr. by rewrite strip_cons_nonspace.
Qed.


Lemma process_buffr_alternate (NAME WORD : list ascii) env :
  Str.contains ":" NAME = false ->
  process_buffr (at_end (NAME ++ lit ":+" ++ WORD) env)
  = (Ret tt,
     mkState (match env !! Str.strip NAME with
              | Some _ => Str.rstrip WORD
              | None => []
              end) [] env []).
Proof.
  intros HN. split_buffr. rewrite strip_cons_nonspace by done. simpl.
  by destruct (env !! Str.strip NAME).
Qed.

Lemma process_buffr_blank (NAME ws : list ascii) env :
  Str.contains ":" NAME = false -> forallb Char.isspace ws = true ->
  process_buffr (at_end (NAME ++ lit ":" ++ ws) env)
  = (Raise BadSubstitution, at_end (NAME ++ lit ":" ++ ws) env).
Proof.
  intros HN Hws. split_buffr. unfold Str.strip.
  by rewrite strip_by_spaces.
Qed.

(** Brings an input [lit "${" ++ NAME ++ sep ++ WORD ++ lit "}"] to the form
    of [expandvars_braced]. *)
Lemma expandvars_reference (sep NAME WORD : list ascii) env :
  Str.contains "}" NAME = false -> Str.contains "}" sep = false ->
  Str.contains "}" WORD = false ->
  expandvars (lit "${" ++ NAME ++ sep ++ WORD ++ lit "}") env
  = finish (process_buffr (at_end (NAME ++ sep ++ WORD) env)).
Proof.
  intros HN Hs HW.
  replace (NAME ++ sep ++ WORD ++ lit "}") with ((NAME ++ sep ++ WORD) ++ lit "}")
    by (by rewrite <- !app_assoc).
  apply expandvars_braced. by apply contains_body.
Qed.

(* ===================================================================== *)
(** ** The entry procedure *)
(* ===================================================================== *)

(** C1.  An input that does not begin with the sigil ["$"], the empty input
    included, is returned as it is and the environment is neither read nor
    written: the result does not depend on it and it is handed back
    unchanged.  The constructor of [Expander] is not run. *)
Theorem expandvars_without_sigil (vars_ : list ascii) env :
  Str.startswith "$" vars_ = false ->
  expandvars vars_ env = (Ret vars_, env).
Proof. intros H. unfold expandvars. by rewrite H. Qed.

Lemma expandvars_without_sigil_witness :
  expandvars (lit "") ∅ = (Ret (lit ""), ∅)
  /\ expandvars (lit "a$FOO") {[lit "FOO" := lit "1"]}
     = (Ret (lit "a$FOO"), {[lit "FOO" := lit "1"]}).
Proof.
  split.
  - apply (expandvars_without_sigil (lit "") ∅). reflexivity.
  - apply (expandvars_without_sigil (lit "a$FOO")). reflexivity.
Defined.

(* ===================================================================== *)
(** ** Default, assign-default and alternate value *)
(* ===================================================================== *)

(** C2, amended.  For every NAME and WORD, expanding [${NAME:-WORD}] yields
    [environ.get(NAME', WORD')], where NAME' is NAME without the white space
    around it and WORD' is WORD without the white space at its end: WORD'
    when NAME' is unset, the stored value when it is set.  The environment
    is left as it was. *)
Theorem default_value (NAME WORD : list ascii) env :
  braced_name NAME -> braced_word WORD ->
  expandvars (lit "${" ++ NAME ++ lit ":-" ++ WORD ++ lit "}") env
  = (Ret (default (Str.rstrip WORD) (env !! Str.strip NAME)), env).
Proof.
  intros [HN1 HN2] HW.
  rewrite expandvars_reference, process_buffr_default; done.
Qed.

Lemma default_value_witness :
  expandvars (lit "${" ++ lit " FOO" ++ lit ":-" ++ lit "a b " ++ lit "}")
    {[lit "BAR" := lit "2"]}
  = (Ret (lit "a b"), {[lit "BAR" := lit "2"]}).
Proof.
  rewrite (default_value (lit " FOO") (lit "a b ") {[lit "BAR" := lit "2"]});
    [|split|]; reflexivity.
Defined.

(** C2 as stated fails where WORD ends in white space: with [FOO] unset,
    [${FOO:-a }] expands to ["a"], not to ["a "]. *)
Lemma default_as_stated_fails :
  expandvars (lit "${FOO:-a }") ∅ = (Ret (lit "a"), ∅)
  /\ ~ default_as_stated (lit "FOO") (lit "a ") ∅.
Proof.
  split; [by vm_compute|].
  intros H. vm_compute in H. discriminate H.
Qed.




(** C4, amended.  With NAME' and WORD' as in C2, expanding [${NAME:+WORD}]
    yields WORD' when NAME' is in the environment and nothing when it is
    not.  WORD' is copied as it is: a sigil or a brace opening in it starts
    no further expansion. *)
Theorem alternate_value (NAME WORD : list ascii) env :
  braced_name NAME -> braced_word WORD ->
  expandvars (lit "${" ++ NAME ++ lit ":+" ++ WORD ++ lit "}") env
  = (Ret (match env !! Str.strip NAME with
          | Some _ => Str.rstrip WORD
          | None => []
          end), env).
Proof.
  intros [HN1 HN2] HW.
  rewrite expandvars_reference, process_buffr_alternate; done.
Qed.

Lemma alternate_value_witness :
  expandvars (lit "${" ++ lit "FOO" ++ lit ":+" ++ lit "$FOO and ${FOO " ++ lit "}")
    {[lit "FOO" := lit "1"]}
  = (Ret (lit "$FOO and ${FOO"), {[lit "FOO" := lit "1"]}).
Proof.
  rewrite (alternate_value (lit "FOO") (lit "$FOO and ${FOO ") {[lit "FOO" := lit "1"]});
    [|split|]; reflexivity.
Defined.

(** C4 as stated fails where WORD ends in white space: with [FOO] set,
    [${FOO:+alt }] expands to ["alt"], not to ["alt "]. *)
Lemma alternate_as_stated_fails :
  expandvars (lit "${FOO:+alt }") {[lit "FOO" := lit "x"]}
  = (Ret (lit "alt"), {[lit "FOO" := lit "x"]})
  /\ ~ alternate_as_stated (lit "FOO") (lit "alt ") {[lit "FOO" := lit "x"]}.
Proof.
  split; [by vm_compute|].
  intros H. vm_compute in H. discriminate H.
Qed.

(* ===================================================================== *)
(** ** The empty modifier *)
(* ===================================================================== *)

(** C10.  For every NAME, bound or not, expanding [${NAME:}] or
    [${NAME:ws}] with [ws] white space only raises ["bad substitution"]: the
    stripped offset is empty and the empty string is not alphanumeric.  The
    environment is unchanged and no result is produced. *)
Theorem empty_modifier_bad_substitution (NAME ws : list ascii) env :
  braced_name NAME -> forallb Char.isspace ws = true ->
  expandvars (lit "${" ++ NAME ++ lit ":" ++ ws ++ lit "}") env
  = (Raise BadSubstitution, env).
Proof.
  intros [HN1 HN2] Hws.
  rewrite expandvars_reference, process_buffr_blank;
    try done. by apply contains_spaces.
Qed.

Lemma empty_modifier_bad_substitution_witness :
  expandvars (lit "${" ++ lit "FOO" ++ lit ":" ++ lit "" ++ lit "}")
    {[lit "FOO" := lit "1"]}
  = (Raise BadSubstitution, {[lit "FOO" := lit "1"]})
  /\ expandvars (lit "${" ++ lit "FOO" ++ lit ":" ++ lit "  " ++ lit "}") ∅
     = (Raise BadSubstitution, ∅).
Proof.
  split.
  - apply (empty_modifier_bad_substitution (lit "FOO") (lit ""));
      [split|]; reflexivity.
  - apply (empty_modifier_bad_substitution (lit "FOO") (lit "  "));
      [split|]; reflexivity.
Defined.

(* ===================================================================== *)
(** ** Slices *)
(* ===================================================================== *)

Lemma strip_app_sep (c : ascii) (a b : list ascii) :
  Char.isspace c = false ->
  Str.strip (a ++ c :: b) = Str.lstrip a ++ c :: Str.rstrip b.
Proof.
  intros Hc. unfold Str.strip, Str.strip_by, Str.lstrip, Str.rstrip.
  rewrite lstrip_by_app_nonspace by done.
  by rewrite rstrip_by_app_nonspace.
Qed.

Lemma startswith_app_sep (c sep : ascii) (a b : list ascii) :
  Ascii.eqb sep c = false ->
  Str.startswith c (a ++ sep :: b) = Str.startswith c a.
Proof. intros Hc. destruct a; simpl; done. Qed.

Lemma contains_lstrip_by (sp : ascii -> bool) (c : ascii) (s : list ascii) :
  Str.contains c s = false -> Str.contains c (Str.lstrip_by sp s) = false.
Proof.
  induction s as [|d s IH]; simpl; [done|].
  intros [Hd Hs]%orb_false_iff. destruct (sp d); [auto|].
  simpl. by rewrite Hd, Hs.
Qed.

Lemma contains_rstrip_by (sp : ascii -> bool) (c : ascii) (s : list ascii) :
  Str.contains c s = false -> Str.contains c (Str.rstrip_by sp s) = false.
Proof.
  induction s as [|d s IH]; simpl; [done|].
  intros [Hd Hs]%orb_false_iff. specialize (IH Hs).
  destruct (Str.rstrip_by sp s) as [|e t].
  - destruct (sp d); simpl; [done|]. by rewrite Hd.
  - simpl in *. by rewrite Hd, IH.
Qed.

Lemma contains_forallb (p : ascii -> bool) (c : ascii) (s : list ascii) :
  p c = false -> forallb p s = true -> Str.contains c s = false.
Proof.
  intros Hc. induction s as [|d s IH]; simpl; [done|].
  intros [Hd Hs]%andb_true_iff. rewrite IH by done.
  destruct (Ascii.eqb_spec c d) as [->|]; [congruence | done].
Qed.

(** A string without white space is its own [strip]. *)
Lemma strip_by_id (sp : ascii -> bool) (s : list ascii) :
  forallb (fun c => negb (sp c)) s = true -> Str.strip_by sp s = s.
Proof.
  intros Hs. unfold Str.strip_by.
  assert (Str.lstrip_by sp s = s) as ->.
  { destruct s as [|c s]; [done|]. simpl in *.
    apply andb_true_iff in Hs as [Hc _]. by destruct (sp c). }
  induction s as [|c s IH]; [done|]. simpl in *.
  apply andb_true_iff in Hs as [Hc Hs]. rewrite IH by done.
  destruct s; [by destruct (sp c) | done].
Qed.

(** *** Integer literals *)

Lemma digit_value_nonneg (c : ascii) (v : Z) :
  Char.digit_value c = Some v -> 0 <= v.
Proof.
  unfold Char.digit_value, Char.isdecimal, Char.between.
  destruct (_ && _)%bool eqn:H; [|done]. intros [= <-].
  apply andb_true_iff in H as [H%N.leb_le _]. lia.
Qed.

Lemma int_digits_nonneg (n : nat) :
  forall (s : list ascii) acc k,
    (length s <= n)%nat -> 0 <= acc ->
    Str.int_digits acc s = Some k -> 0 <= k.
Proof.
  induction n as [|n IH]; intros [|c s] acc k Hn Hacc; simpl in *;
    try lia; try (by intros [= <-]).
  destruct (Ascii.eqb c "_").
  - destruct s as [|d s]; [done|].
    destruct (Char.digit_value d) as [v|] eqn:Hd; [|done].
    apply digit_value_nonneg in Hd.
    destruct n as [|n]; [simpl in Hn; lia|].
    apply (IH s); simpl in *; try lia.
  - destruct (Char.digit_value c) as [v|] eqn:Hc; [|done].
    apply digit_value_nonneg in Hc. apply IH; lia.
Qed.

Lemma int_unsigned_nonneg (s : list ascii) (k : Z) :
  Str.int_unsigned s = Some k -> 0 <= k.
Proof.
  destruct s as [|c s]; simpl; [done|].
  destruct (Char.digit_value c) as [v|] eqn:Hc; [|done].
  apply digit_value_nonneg in Hc.
  by apply (int_digits_nonneg (length s)).
Qed.

(** An integer literal without a minus sign is not negative. *)
Lemma int_nonneg (s : list ascii) (k : Z) :
  Str.contains "-" s = false -> Str.int s = Some k -> 0 <= k.
Proof.
  intros Hs. unfold Str.int, Str.strip_by.
  pose proof (contains_rstrip_by Char.isspace_int _ _
                (contains_lstrip_by Char.isspace_int _ _ Hs)) as Ht.
  destruct (Str.rstrip_by _ _) as [|c t]; [done|].
  simpl in Ht. apply orb_false_iff in Ht as [Hc _].
  destruct (Ascii.eqb_spec c "+"); [apply int_unsigned_nonneg|].
  destruct (Ascii.eqb_spec c "-") as [->|]; [done|].
  apply int_unsigned_nonneg.
Qed.

Lemma int_digits_decimal (s : list ascii) :
  forallb Char.isdecimal s = true ->
  forall acc, exists k, Str.int_digits acc s = Some k.
Proof.
  induction s as [|c s IH]; simpl; [by eauto|].
  intros [Hc Hs]%andb_true_iff acc.
  destruct (Ascii.eqb_spec c "_") as [->|]; [done|].
  unfold Char.digit_value. rewrite Hc. by apply IH.
Qed.

(** A non-empty string of decimal digits is an integer literal, and not a
    negative one. *)
Lemma int_decimal (s : list ascii) :
  Str.all_chars Char.isdecimal s = true ->
  exists k, Str.int s = Some k /\ 0 <= k.
Proof.
  intros [Hne Hs]%andb_true_iff.
  assert (exists k, Str.int s = Some k) as [k Hk].
  { unfold Str.int. rewrite strip_by_id.
    - destruct s as [|c s]; [done|]. simpl in Hs.
      apply andb_true_iff in Hs as [Hc Hs].
      destruct (Ascii.eqb_spec c "+") as [->|]; [done|].
      destruct (Ascii.eqb_spec c "-") as [->|]; [done|].
      simpl. unfold Char.digit_value. rewrite Hc.
      by apply int_digits_decimal.
    - apply forallb_forall. intros c Hc.
      apply (proj1 (forallb_forall _ _) Hs) in Hc. revert Hc.
      by destruct c as [[] [] [] [] [] [] [] []]. }
  exists k. split; [done|]. apply (int_nonneg s); [|done].
  by apply (contains_forallb Char.isdecimal).
Qed.

Lemma isalpha_char_facts (c : ascii) :
  Char.isalpha c = true ->
  Char.isspace_int c = false /\ Char.isdecimal c = false
  /\ Ascii.eqb c "+" = false /\ Ascii.eqb c "-" = false.
Proof. by destruct c as [[] [] [] [] [] [] [] []]. Qed.

(** A purely alphabetic string is not an integer literal. *)
Lemma int_alpha (s : list ascii) :
  Str.isalpha s = true -> Str.int s = None.
Proof.
  intros [Hne Hs]%andb_true_iff. unfold Str.int.
  rewrite strip_by_id.
  - destruct s as [|c s]; [done|]. simpl in Hs.
    apply andb_true_iff in Hs as [Hc _].
    apply isalpha_char_facts in Hc as (_ & Hd & -> & ->).
    simpl. unfold Char.digit_value. by rewrite Hd.
  - apply forallb_forall. intros c Hc.
    apply (proj1 (forallb_forall _ _) Hs), isalpha_char_facts in Hc
      as (-> & _). done.
Qed.

Lemma int_not_empty (s : list ascii) (n : Z) :
  Str.int s = Some n -> Str.is_empty s = false.
Proof. by destruct s. Qed.

Lemma process_buffr_two_part (NAME OFFSET LENGTH : list ascii) env :
  Str.contains ":" NAME = false -> slice_offset OFFSET ->
  process_buffr (at_end (NAME ++ lit ":" ++ OFFSET ++ lit ":" ++ LENGTH) env)
  = two_part (Str.strip NAME) (Str.strip OFFSET) (Str.strip LENGTH)
      (at_end (NAME ++ lit ":" ++ OFFSET ++ lit ":" ++ LENGTH) env).
Proof.
  intros HN (HO1 & HO2 & Hp & Hm & He). split_buffr.
  rewrite strip_app_sep by done.
  rewrite !startswith_app_sep, Hp, Hm, He by done. simpl.
  rewrite contains_app_sep. simpl.
  rewrite split1_app by (by apply contains_lstrip_by).
  unfold Str.strip, Str.lstrip, Str.rstrip.
  by rewrite strip_by_lstrip, strip_by_rstrip.
Qed.

Lemma process_buffr_one_part (NAME OFFSET : list ascii) env :
  Str.contains ":" NAME = false -> Str.contains ":" OFFSET = false ->
  Str.startswith "+" (Str.strip OFFSET) = false ->
  Str.startswith "-" (Str.strip OFFSET) = false ->
  Str.startswith "=" (Str.strip OFFSET) = false ->
  process_buffr (at_end (NAME ++ lit ":" ++ OFFSET) env)
  = one_part (Str.strip NAME) (Str.strip OFFSET)
      (at_end (NAME ++ lit ":" ++ OFFSET) env).
Proof.
  intros HN HO Hp Hm He. split_buffr. rewrite Hp, Hm, He. simpl.
  assert (Str.contains ":" (Str.strip OFFSET) = false) as ->; [|done].
  by apply contains_rstrip_by, contains_lstrip_by.
Qed.

Lemma all_chars_impl (p q : ascii -> bool) (s : list ascii) :
  (forall c, p c = true -> q c = true) ->
  Str.all_chars p s = true -> Str.all_chars q s = true.
Proof.
  intros Hpq [Hne Hs]%andb_true_iff. apply andb_true_iff. split; [done|].
  apply forallb_forall. intros c Hc.
  by apply Hpq, (proj1 (forallb_forall _ _) Hs).
Qed.

Lemma all_chars_startswith (p : ascii -> bool) (c : ascii) (s : list ascii) :
  p c = false -> Str.all_chars p s = true -> Str.startswith c s = false.
Proof.
  intros Hc [_ Hs]%andb_true_iff. destruct s as [|d s]; [done|]. simpl in *.
  apply andb_true_iff in Hs as [Hd _].
  destruct (Ascii.eqb_spec d c) as [->|]; [congruence | done].
Qed.

Lemma all_chars_not_empty (p : ascii -> bool) (s : list ascii) :
  Str.all_chars p s = true -> Str.is_empty s = false.
Proof. by destruct s. Qed.

Lemma decimal_digits_isdigit (s : list ascii) :
  decimal_digits s = true -> Str.isdigit s = true.
Proof.
  apply all_chars_impl. intros c Hc. unfold Char.isdigit. by rewrite Hc.
Qed.


Lemma expandvars_slice_reference (NAME OFFSET LENGTH : list ascii) env :
  braced_name NAME -> Str.contains "}" OFFSET = false -> braced_word LENGTH ->
  expandvars (lit "${" ++ NAME ++ lit ":" ++ OFFSET ++ lit ":" ++ LENGTH ++ lit "}") env
  = finish (process_buffr
              (at_end (NAME ++ lit ":" ++ OFFSET ++ lit ":" ++ LENGTH) env)).
Proof.
  intros [_ HN] HO HL.
  replace (NAME ++ lit ":" ++ OFFSET ++ lit ":" ++ LENGTH ++ lit "}")
    with ((NAME ++ lit ":" ++ OFFSET ++ lit ":" ++ LENGTH) ++ lit "}").
  - apply expandvars_braced. rewrite !contains_app. simpl.
    by rewrite HN, HO, HL.
  - by rewrite <- !app_assoc.
Qed.

(** The tokens of a two-part slice with an integer LENGTH that is not
    negative reach the slicing code. *)
Lemma two_part_reaches_slicing (x y z : list ascii) (n : Z) (st : state) :
  Str.int z = Some n -> 0 <= n ->
  two_part x y z st
  = (if Str.is_empty y || negb (Str.isdigit y) then
       v <- environ_get x [];;
       result_extend (Str.slice v None (Some n));;
       buffr_clear
     else
       y <- int y;;
       v <- environ_get x [];;
       result_extend (Str.slice v (Some y) (Some (y + n)));;
       buffr_clear) st.
Proof.
  intros Hz Hn. unfold two_part.
  rewrite (int_not_empty z n Hz). simpl.
  destruct (Str.isalpha z) eqn:Ha; [apply int_alpha in Ha; congruence|].
  unfold _isint. rewrite Hz, andb_false_r. simpl. rewrite Hz. simpl.
  by rewrite (proj2 (Z.ltb_ge n 0) Hn).
Qed.




(** *** The one-part slice *)





(** *** Errors of the LENGTH token *)




(* ===================================================================== *)
(** ** The fuel is never used up *)
(* ===================================================================== *)

Lemma post_bind {A B} (m : M A) (k : A -> M B) (st : state)
    (Q : A -> state -> Prop) (R : B -> state -> Prop) :
  post (m st) Q ->
  (forall a st', Q a st' -> post (k a st') R) ->
  post (bind m k st) R.
Proof.
  unfold bind. destruct (m st) as [[a|e|] st']; simpl; auto.
Qed.

Lemma post_mono {A} (r : outcome A * state) (Q Q' : A -> state -> Prop) :
  post r Q -> (forall a st, Q a st -> Q' a st) -> post r Q'.
Proof. destruct r as [[a|e|] st]; simpl; auto. Qed.

Lemma process_buffr_post (st : state) :
  post (process_buffr st) (fun _ st' => variter st' = variter st).
Proof.
  unfold process_buffr, int. simpl.
  repeat
    (match goal with
     | |- context [if ?b then _ else _] => destruct b
     | |- context [match Str.int ?s with _ => _ end] => destruct (Str.int s)
     | |- context [let '(_, _) := ?p in _] => destruct p
     | |- context [match environ_contains ?x ?s with _ => _ end] =>
         unfold environ_contains
     end; simpl);
    done.
Qed.

Lemma when_process_buffr_post (b : bool) (st : state) :
  post (when b process_buffr st) (fun _ st' => variter st' = variter st).
Proof. destruct b; simpl; [apply process_buffr_post | done]. Qed.

Lemma _next_or_done_post (st : state) :
  post (_next_or_done st)
    (fun c st' =>
       match c with
       | Some ch => variter st = ch :: variter st'
       | None => variter st' = []
       end).
Proof.
  unfold _next_or_done, next. simpl.
  destruct (variter st) as [|ch it] eqn:Hit; simpl; [|done].
  pose proof (process_buffr_post st) as H.
  destruct (process_buffr st) as [[[]|e|] st']; simpl in *; congruence.
Qed.

Lemma expand_var_while_post (fuel : nat) :
  forall (c : ascii) (st : state),
    (length (variter st) < fuel)%nat ->
    post (expand_var_while fuel c st)
      (fun c' st' =>
         match c' with
         | Some _ => (length (variter st') <= length (variter st))%nat
         | None => variter st' = []
         end).
Proof.
  induction fuel as [|fuel IH]; intros c st Hfuel; [lia|].
  rewrite expand_var_while_S. destruct (_valid_char c); [|simpl; lia].
  eapply post_bind with (Q := fun _ st' => variter st' = variter st);
    [done|]. intros _ st1 H1.
  eapply post_bind; [apply _next_or_done_post|].
  intros [ch|] st2 H2; [|done].
  rewrite H1 in H2. rewrite H2 in Hfuel. simpl in Hfuel.
  eapply post_mono; [apply IH; lia|].
  intros [d|] st3; simpl; [|done]. rewrite H2. simpl. lia.
Qed.

Lemma expand_modifier_var_while_post (fuel : nat) :
  forall (st : state),
    (length (variter st) < fuel)%nat ->
    post (expand_modifier_var_while fuel st)
      (fun _ st' => (length (variter st') < length (variter st))%nat).
Proof.
  induction fuel as [|fuel IH]; intros st Hfuel; [lia|].
  rewrite expand_modifier_var_while_S.
  eapply post_bind with
    (Q := fun c st' =>
            match c with
            | Some ch => variter st = ch :: variter st'
            | None => True
            end).
  { unfold next. by destruct (variter st). }
  intros [ch|] st1 H1; [|done].
  rewrite H1 in Hfuel |- *. simpl in Hfuel.
  destruct (Ascii.eqb ch "}"); [simpl; lia|].
  eapply post_bind with (Q := fun _ st' => variter st' = variter st1);
    [done|]. intros _ st2 H2.
  eapply post_mono; [apply IH; rewrite H2; lia|].
  intros [] st3. rewrite H2. simpl. lia.
Qed.

Lemma expand_val_while_post (fuel : nat) :
  forall (c : option ascii) (st : state),
    match c with
    | Some _ => (S (length (variter st)) < fuel)%nat
    | None => (0 < fuel)%nat /\ variter st = []
    end ->
    post (expand_val_while fuel c st)
      (fun c' st' =>
         match c' with
         | Some _ => (length (variter st') <= length (variter st))%nat
         | None => variter st' = []
         end).
Proof.
  induction fuel as [|fuel IH]; intros c st Hfuel;
    [destruct c; lia|].
  rewrite expand_val_while_S. destruct c as [ch|]; [|simpl; tauto].
  destruct (negb (Ascii.eqb ch "$")); [|simpl; lia].
  eapply post_bind with (Q := fun _ st' => variter st' = variter st);
    [done|]. intros _ st1 H1.
  eapply post_bind; [apply _next_or_done_post|].
  intros [d|] st2 H2.
  - rewrite H1 in H2. rewrite H2 in Hfuel. simpl in Hfuel.
    eapply post_mono; [apply (IH (Some d)); lia|].
    intros [e|] st3; simpl; [|done]. rewrite H2. simpl. lia.
  - eapply post_mono; [apply (IH None); split; [lia | done]|].
    intros [e|] st3; simpl; [|done]. rewrite H2. simpl. lia.
Qed.

Lemma expand_methods_exhausted (fuel : nat) :
  (forall st, (2 * length (variter st) + 2 <= fuel)%nat ->
     exhausted (expand_var fuel st))
  /\ (forall st, (2 * length (variter st) + 2 <= fuel)%nat ->
        exhausted (expand_modifier_var fuel st))
  /\ (forall ch st, (2 * length (variter st) + 3 <= fuel)%nat ->
        exhausted (expand_val fuel (Some ch) st)).
Proof.
  induction fuel as [|fuel (IHvar & IHmod & IHval)];
    [repeat split; intros; lia|].
  assert (Hdollar : forall (c : ascii) st,
             variter st = [] -> (3 <= fuel)%nat ->
             exhausted (expand_val fuel (Some c) st)).
  { intros c st Hst Hf. apply IHval. rewrite Hst. simpl. lia. }
  refine (conj _ (conj _ _)).
  - intros st Hfuel. rewrite expand_var_S. unfold exhausted.
    eapply post_bind with (Q := fun _ st' => st' = st); [done|].
    intros b st0 ->.
    eapply post_bind; [apply when_process_buffr_post|]. intros [] st1 H1.
    eapply post_bind; [apply _next_or_done_post|].
    intros [c|] st2 H2; [|done].
    rewrite H1 in H2. rewrite H2 in Hfuel. simpl in Hfuel.
    destruct (Ascii.eqb c "{"); [apply IHmod; lia|].
    eapply post_bind; [apply expand_var_while_post; lia|].
    intros [d|] st3 H3; [|done].
    eapply post_bind; [apply process_buffr_post|]. intros [] st4 H4.
    rewrite <- H4 in H3.
    destruct (Ascii.eqb d "$"); simpl.
    + eapply post_bind; [apply IHvar; lia|].
      intros [] st5 H5. apply Hdollar; [done | lia].
    + apply IHval. lia.
  - intros st Hfuel. rewrite expand_modifier_var_S. unfold exhausted.
    eapply post_bind with (Q := fun _ st' => st' = st); [done|].
    intros b st0 ->.
    eapply post_bind; [apply when_process_buffr_post|]. intros [] st1 H1.
    rewrite <- H1 in Hfuel.
    eapply post_bind; [apply expand_modifier_var_while_post; lia|].
    intros [] st2 H2.
    eapply post_bind; [apply _next_or_done_post|].
    intros [c|] st3 H3; [|done].
    rewrite H3 in H2. simpl in H2.
    destruct (Ascii.eqb c "$"); simpl.
    + eapply post_bind; [apply IHvar; lia|].
      intros [] st4 H4. apply Hdollar; [done | lia].
    + apply IHval. lia.
  - intros ch st Hfuel. rewrite expand_val_S. unfold exhausted.
    eapply post_bind with (Q := fun _ st' => st' = st); [done|].
    intros b st0 ->.
    eapply post_bind; [apply when_process_buffr_post|]. intros [] st1 H1.
    rewrite <- H1 in Hfuel.
    eapply post_bind; [apply (expand_val_while_post _ (Some ch)); lia|].
    intros [d|] st2 H2; [|done].
    apply IHvar. lia.
Qed.

(** The constructor never runs out of the fuel [expandvars] gives it: every
    run ends as Python's does, with a result or with a [ValueError]. *)
Theorem Expander_total (vars_ : list ascii) env :
  (Expander vars_ env).1 <> OutOfFuel /\ (expandvars vars_ env).1 <> OutOfFuel.
Proof.
  assert ((Expander vars_ env).1 <> OutOfFuel) as H.
  { unfold Expander, Expander_init.
    destruct vars_ as [|c it]; [done|].
    destruct (expand_methods_exhausted (fuel_for (c :: it)))
      as (Hvar & _ & Hval).
    set (st := mkState [] [] env it). simpl. fold st.
    assert (forall m : M unit, exhausted (m st) -> (finish (m st)).1 <> OutOfFuel)
      as Hfin.
    { intros m. unfold exhausted.
      by destruct (m st) as [[[]|e|] st']. }
    destruct (Ascii.eqb c "$"); apply Hfin; [apply Hvar | apply Hval];
      unfold fuel_for; simpl; lia. }
  split; [done|]. unfold expandvars.
  destruct (negb _); [done | exact H].
Qed.

(* ===================================================================== *)
(** ** The brace that is never closed *)
(* ===================================================================== *)



(** The brace can be opened anywhere: what was expanded before it is lost
    with the failure. *)
Example brace_opened_later :
  expandvars (lit "$FOO and ${BAR") {[lit "FOO" := lit "1"]}
  = (Raise (UnterminatedBrace (lit "BAR")), {[lit "FOO" := lit "1"]})
  /\ expandvars (lit "${FOO}${BAR:-x") {[lit "FOO" := lit "1"]}
     = (Raise (UnterminatedBrace (lit "BAR:-x")), {[lit "FOO" := lit "1"]}).
Proof. split; by vm_compute. Qed.

(* ===================================================================== *)
(** ** Adjacent references *)
(* ===================================================================== *)

Lemma valid_char_not (c d : ascii) :
  _valid_char c = true -> _valid_char d = false -> Ascii.eqb c d = false.
Proof.
  intros Hc Hd. destruct (Ascii.eqb_spec c d) as [->|]; [congruence | done].
Qed.

Lemma expand_var_while_name (name : list ascii) :
  forallb _valid_char name = true ->
  forall (fuel : nat) (c d : ascii) (rest r b : list ascii) env,
    _valid_char c = true -> _valid_char d = false ->
    (S (length name) < fuel)%nat ->
    expand_var_while fuel c (mkState r b env (name ++ d :: rest))
    = (Ret (Some d), mkState r (b ++ c :: name) env rest).
Proof.
  induction name as [|e name IH]; intros Hname fuel c d rest r b env Hc Hd Hfuel;
    (destruct fuel as [|fuel]; [lia|]); rewrite expand_var_while_S, Hc; simpl.
  - destruct fuel as [|fuel]; [simpl in Hfuel; lia|].
    rewrite expand_var_while_S, Hd. done.
  - simpl in Hname. apply andb_true_iff in Hname as [He Hname].
    rewrite IH by (done || simpl in Hfuel; lia).
    by rewrite <- app_assoc.
Qed.

Lemma expand_var_while_name_end (name : list ascii) :
  forallb _valid_char name = true ->
  forall (fuel : nat) (c : ascii) (r b : list ascii) env,
    _valid_char c = true ->
    (length name < fuel)%nat ->
    expand_var_while fuel c (mkState r b env name)
    = (process_buffr;; ret None) (mkState r (b ++ c :: name) env []).
Proof.
  induction name as [|e name IH]; intros Hname fuel c r b env Hc Hfuel;
    (destruct fuel as [|fuel]; [lia|]); rewrite expand_var_while_S, Hc; simpl.
  - by destruct (process_buffr _) as [[[]|?|] ?].
  - simpl in Hname. apply andb_true_iff in Hname as [He Hname].
    rewrite IH by (done || simpl in Hfuel; lia).
    by rewrite <- app_assoc.
Qed.

Lemma process_buffr_plain (name r it : list ascii) env :
  variable_name name ->
  process_buffr (mkState r name env it)
  = (Ret tt, mkState (r ++ default [] (env !! name)) [] env it).
Proof.
  intros [Hne Hname]%andb_true_iff. unfold process_buffr. simpl.
  apply negb_true_iff in Hne. rewrite Hne.
  by rewrite (contains_forallb _valid_char ":" name).
Qed.

Lemma process_buffr_empty (r it : list ascii) env :
  process_buffr (mkState r [] env it) = (Ret tt, mkState r [] env it).
Proof. reflexivity. Qed.

(** C6, what the code does.  For two variable names A and B, the input
    [$A$B] expands to the value of A, the value of B and one sigil more:
    after the reference that ["$"] ended, [expand_var] calls [expand_var]
    for the next reference and then, without a [return], [expand_val] with
    that same ["$"], which reads the exhausted input as a trailing sigil. *)
Theorem adjacent_references (A B : list ascii) env :
  variable_name A -> variable_name B ->
  expandvars (lit "$" ++ A ++ lit "$" ++ B) env
  = (Ret (default [] (env !! A) ++ default [] (env !! B) ++ lit "$"), env).
Proof.
  intros HA HB. unfold expandvars, Expander.
  assert (exists f, fuel_for (lit "$" ++ A ++ lit "$" ++ B) = S (S (S (S f)))
                    /\ (length A + length B < f)%nat) as (f & -> & Hf).
  { exists (length (A ++ lit "$" ++ B) + length (A ++ lit "$" ++ B))%nat.
    split; [unfold fuel_for; simpl; f_equal; lia|].
    rewrite length_app. simpl. lia. }
  pose proof HA as [HAne HAv]%andb_true_iff.
  pose proof HB as [HBne HBv]%andb_true_iff.
  destruct A as [|a A']; [done|]. destruct B as [|b B']; [done|].
  simpl in HAv, HBv, Hf.
  apply andb_true_iff in HAv as [Ha HAv].
  apply andb_true_iff in HBv as [Hb HBv].
  simpl.
  (* the first reference, ended by the sigil *)
  rewrite expand_var_S. simpl.
  rewrite (valid_char_not a "{") by done. simpl.
  rewrite expand_var_while_name by (done || lia). simpl.
  rewrite process_buffr_plain by done. simpl.
  (* the second reference, ended by the end of the input *)
  rewrite expand_var_S. simpl.
  rewrite (valid_char_not b "{") by done. simpl.
  rewrite expand_var_while_name_end by (done || lia). simpl.
  rewrite process_buffr_plain by done. simpl.
  (* [expand_val] with the sigil that was already handled: it calls
     [expand_var] on the exhausted input, which appends the sigil *)
  by rewrite <- app_assoc.
Qed.

Lemma adjacent_references_witness :
  expandvars (lit "$" ++ lit "FOO" ++ lit "$" ++ lit "BAR")
    {[lit "FOO" := lit "1"; lit "BAR" := lit "2"]}
  = (Ret (lit "12$"), {[lit "FOO" := lit "1"; lit "BAR" := lit "2"]}).
Proof.
  rewrite (adjacent_references (lit "FOO") (lit "BAR")); reflexivity.
Defined.

(** The same happens after a braced reference, and it does not happen when
    literal text stands between the references. *)
Example references_in_sequence :
  let env : gmap (list ascii) (list ascii) :=
    {[lit "FOO" := lit "1"; lit "BAR" := lit "2"]} in
  expandvars (lit "$FOO-$BAR") env = (Ret (lit "1-2"), env)
  /\ expandvars (lit "$FOO$BAR") env = (Ret (lit "12$"), env)
  /\ expandvars (lit "${FOO}$BAR") env = (Ret (lit "12$"), env)
  /\ expandvars (lit "${FOO}${BAR}") env = (Ret (lit "12$"), env)
  /\ expandvars (lit "$FOO$BAR$FOO") env = (Ret (lit "121$$"), env).
Proof. repeat split; by vm_compute. Qed.

(* ===================================================================== *)
(** ** Invariants of the state machine *)
(* ===================================================================== *)

Lemma holds_bind {A B} (m : M A) (k : A -> M B) (st : state)
    (Q : A -> state -> Prop) (R : B -> state -> Prop) (E : state -> Prop) :
  holds (m st) Q E ->
  (forall a st', Q a st' -> holds (k a st') R E) ->
  holds (bind m k st) R E.
Proof.
  unfold bind. destruct (m st) as [[a|e|] st']; simpl; auto.
Qed.

Lemma holds_mono {A} (r : outcome A * state)
    (Q Q' : A -> state -> Prop) (E : state -> Prop) :
  holds r Q E -> (forall a st, Q a st -> Q' a st) -> holds r Q' E.
Proof. destruct r as [[a|e|] st]; simpl; auto. Qed.

(** An invariant [J] of the state that [process_buffr] keeps, that holds
    for whatever character [next] hands out ([ok]) and that survives the
    appends, is kept by every method; [E] is what is left of it when a
    method raises. *)
Section Invariant.

Variable J : state -> Prop.
Variable ok : ascii -> Prop.
Variable E : state -> Prop.

Hypothesis J_E : forall st, J st -> E st.
Hypothesis J_process_buffr :
  forall st, J st -> holds (process_buffr st) (fun _ st' => J st') E.
Hypothesis J_next :
  forall r b env c it,
    J (mkState r b env (c :: it)) -> ok c /\ J (mkState r b env it).
Hypothesis J_buffr_append :
  forall r b env it c,
    J (mkState r b env it) -> ok c -> J (mkState r (b ++ [c]) env it).
Hypothesis J_result_append :
  forall r b env it c,
    J (mkState r b env it) -> J (mkState (r ++ [c]) b env it).

Lemma invariant_when_process_buffr (b : bool) (st : state) :
  J st -> holds (when b process_buffr st) (fun _ st' => J st') E.
Proof. intros HJ. destruct b; simpl; auto. Qed.

Lemma invariant_next_or_done (st : state) :
  J st ->
  holds (_next_or_done st)
    (fun c st' => J st' /\ match c with Some ch => ok ch | None => True end) E.
Proof.
  intros HJ. unfold _next_or_done, next. destruct st as [r b env [|c it]]; simpl.
  - eapply holds_bind; [apply J_process_buffr, HJ|]. by intros [] st' HJ'.
  - apply J_next in HJ as [Hc HJ]. done.
Qed.

Lemma invariant_expand_var_while (fuel : nat) :
  forall (c : ascii) (st : state),
    J st -> ok c ->
    holds (expand_var_while fuel c st)
      (fun c' st' => J st' /\ match c' with Some ch => ok ch | None => True end)
      E.
Proof.
  induction fuel as [|fuel IH]; intros c st HJ Hc; [simpl; auto|].
  rewrite expand_var_while_S. destruct (_valid_char c); [|done].
  eapply holds_bind with (Q := fun _ st' => J st').
  { destruct st. simpl. by apply J_buffr_append. }
  intros [] st1 H1.
  eapply holds_bind; [by apply invariant_next_or_done|].
  intros [ch|] st2 [H2 Hch]; [by apply IH | done].
Qed.

Lemma invariant_expand_modifier_var_while (fuel : nat) :
  forall (st : state),
    J st -> holds (expand_modifier_var_while fuel st) (fun _ st' => J st') E.
Proof.
  induction fuel as [|fuel IH]; intros st HJ; [simpl; auto|].
  rewrite expand_modifier_var_while_S.
  unfold bind at 1, next. destruct st as [r b env [|c it]]; simpl; [auto|].
  apply J_next in HJ as [Hc HJ].
  destruct (Ascii.eqb c "}"); simpl; [done|].
  apply IH. by apply J_buffr_append.
Qed.

Lemma invariant_expand_val_while (fuel : nat) :
  forall (c : option ascii) (st : state),
    J st ->
    holds (expand_val_while fuel c st) (fun _ st' => J st') E.
Proof.
  induction fuel as [|fuel IH]; intros c st HJ; [simpl; auto|].
  rewrite expand_val_while_S. destruct c as [ch|]; [|done].
  destruct (negb (Ascii.eqb ch "$")); [|done].
  eapply holds_bind with (Q := fun _ st' => J st').
  { destruct st. simpl. by apply J_result_append. }
  intros [] st1 H1.
  eapply holds_bind; [by apply invariant_next_or_done|].
  intros c' st2 [H2 _]. by apply IH.
Qed.

Lemma invariant_expand_methods (fuel : nat) :
  (forall st, J st -> holds (expand_var fuel st) (fun _ st' => J st') E)
  /\ (forall st, J st ->
        holds (expand_modifier_var fuel st) (fun _ st' => J st') E)
  /\ (forall c st, J st ->
        holds (expand_val fuel c st) (fun _ st' => J st') E).
Proof.
  induction fuel as [|fuel (IHvar & IHmod & IHval)];
    [repeat split; intros; simpl; auto|].
  assert (Hwhen : forall (b : bool) (m : M unit) st,
             (forall st, J st -> holds (m st) (fun _ st' => J st') E) ->
             J st -> holds (when b m st) (fun _ st' => J st') E).
  { intros b m st Hm HJ. destruct b; simpl; auto. }
  refine (conj _ (conj _ _)).
  - intros st HJ. rewrite expand_var_S.
    eapply holds_bind with (Q := fun _ st' => J st'); [done|].
    intros b st0 H0.
    eapply holds_bind; [by apply invariant_when_process_buffr|].
    intros [] st1 H1.
    eapply holds_bind; [by apply invariant_next_or_done|].
    intros [c|] st2 [H2 Hc].
    + destruct (Ascii.eqb c "{"); [by apply IHmod|].
      eapply holds_bind; [by apply invariant_expand_var_while|].
      intros [d|] st3 [H3 Hd]; [|done].
      eapply holds_bind; [by apply J_process_buffr|]. intros [] st4 H4.
      eapply holds_bind; [by apply Hwhen|]. intros [] st5 H5.
      by apply IHval.
    + destruct st2. simpl. by apply J_result_append.
  - intros st HJ. rewrite expand_modifier_var_S.
    eapply holds_bind with (Q := fun _ st' => J st'); [done|].
    intros b st0 H0.
    eapply holds_bind; [by apply invariant_when_process_buffr|].
    intros [] st1 H1.
    eapply holds_bind; [by apply invariant_expand_modifier_var_while|].
    intros [] st2 H2.
    eapply holds_bind; [by apply invariant_next_or_done|].
    intros [c|] st3 [H3 Hc]; [|done].
    eapply holds_bind; [by apply Hwhen|]. intros [] st4 H4.
    by apply IHval.
  - intros c st HJ. rewrite expand_val_S.
    eapply holds_bind with (Q := fun _ st' => J st'); [done|].
    intros b st0 H0.
    eapply holds_bind; [by apply invariant_when_process_buffr|].
    intros [] st1 H1.
    eapply holds_bind; [by apply invariant_expand_val_while|].
    intros [d|] st2 H2; [by apply IHvar | done].
Qed.

(** The invariant from the start of [Expander(vars_)] to its end. *)
Lemma invariant_Expander_init (fuel : nat) (vars_ : list ascii) env :
  (forall it, (exists pre, vars_ = pre ++ it) -> J (mkState [] [] env it)) ->
  match vars_ with c :: _ => ok c | [] => True end ->
  holds (Expander_init fuel vars_ (mkState [] [] env []))
    (fun _ st' => J st') E.
Proof.
  intros HJ Hc. unfold Expander_init. destruct vars_ as [|c it].
  - simpl. apply HJ. by exists [].
  - simpl. assert (J (mkState [] [] env it)) as Hit.
    { apply HJ. by exists [c]. }
    destruct (invariant_expand_methods fuel) as (Hvar & _ & Hval).
    destruct (Ascii.eqb c "$"); [by apply Hvar | by apply Hval].
Qed.

End Invariant.

(* ===================================================================== *)
(** ** What an expansion does to the environment *)
(* ===================================================================== *)

Lemma contains_split1 (c d : ascii) (s : list ascii) :
  Str.contains c s = false ->
  Str.contains c (Str.split1 d s).1 = false
  /\ Str.contains c (Str.split1 d s).2 = false.
Proof.
  induction s as [|e s IH]; simpl; [done|].
  intros [He Hs]%orb_false_iff. destruct (Ascii.eqb e d); [done|].
  destruct (IH Hs) as [H1 H2]. destruct (Str.split1 d s) as [x y].
  simpl in *. by rewrite He, H1.
Qed.

Lemma contains_strip (c : ascii) (s : list ascii) :
  Str.contains c s = false -> Str.contains c (Str.strip s) = false.
Proof. intros H. by apply contains_rstrip_by, contains_lstrip_by. Qed.

Lemma startswith_contains (c : ascii) (s : list ascii) :
  Str.startswith c s = true -> Str.contains c s = true.
Proof.
  destruct s as [|d s]; simpl; [done|].
  intros H. by rewrite Ascii.eqb_sym, H.
Qed.

(** [process_buffr] leaves the buffer empty and the iterator where it was,
    and only adds to the result. *)
Lemma process_buffr_clears (st : state) :
  post (process_buffr st)
    (fun _ st' => _buffr st' = [] /\ variter st' = variter st
                  /\ exists v, _result st' = _result st ++ v).
Proof.
  unfold process_buffr, int. simpl.
  destruct (Str.is_empty (_buffr st)) eqn:Hb.
  { simpl. destruct (_buffr st); [|done].
    repeat split. exists []. by rewrite app_nil_r. }
  repeat
    (match goal with
     | |- context [if ?b then _ else _] => destruct b
     | |- context [match Str.int ?s with _ => _ end] => destruct (Str.int s)
     | |- context [let '(_, _) := ?p in _] => destruct p
     end; simpl);
    try done; repeat split; eauto; exists []; by rewrite app_nil_r.
Qed.

(** [process_buffr] changes the environment in one way only: it binds a
    name that was unbound, and only for a buffer that holds ["="]. *)
Lemma process_buffr_environ (st : state) :
  environ (process_buffr st).2 = environ st
  \/ exists x y,
       environ st !! x = None
       /\ environ (process_buffr st).2 = <[x := y]> (environ st)
       /\ Str.contains "=" (_buffr st) = true.
Proof.
  unfold process_buffr, int. simpl.
  destruct (Str.is_empty (_buffr st)); [by left|].
  destruct (negb (Str.contains ":" (_buffr st))); [by left|].
  pose proof (contains_split1 "=" ":" (_buffr st)) as Hsplit.
  destruct (Str.split1 ":" (_buffr st)) as [x y]. simpl in Hsplit.
  destruct (Str.startswith "+" (Str.strip y)).
  { simpl. destruct (bool_decide _); by left. }
  destruct (Str.startswith "-" (Str.strip y) || Str.startswith "=" (Str.strip y)).
  { simpl.
    destruct (Str.startswith "=" (take 1 (Str.strip y))) eqn:Heq; simpl;
      [|by left].
    destruct (environ st !! Str.strip x) as [v|] eqn:Hx; simpl; [by left|].
    right. exists (Str.strip x), (drop 1 (Str.strip y)).
    repeat split; [done|].
    destruct (Str.contains "=" (_buffr st)) eqn:Hc; [done|].
    destruct (Hsplit eq_refl) as [_ Hy]. apply contains_strip in Hy.
    destruct (Str.strip y) as [|e t]; [done|]. simpl in Heq, Hy.
    rewrite Ascii.eqb_sym, Heq in Hy. done. }
  repeat
    (match goal with
     | |- context [if ?b then _ else _] => destruct b
     | |- context [match Str.int ?s with _ => _ end] => destruct (Str.int s)
     | |- context [let '(_, _) := ?p in _] => destruct p
     end; simpl);
    by left.
Qed.

(** An expansion never removes a variable and never changes the value of
    one that exists, whatever the input and however it ends: the environment
    it leaves extends the one it found. *)
Theorem environ_only_grows (vars_ : list ascii) env :
  env ⊆ (expandvars vars_ env).2.
Proof.
  unfold expandvars. destruct (negb _); [done|]. unfold Expander.
  pose proof (invariant_Expander_init
                (fun st => env ⊆ environ st) (fun _ => True)
                (fun st => env ⊆ environ st)) as H.
  specialize (H (fun _ HJ => HJ)).
  assert (holds (Expander_init (fuel_for vars_) vars_ (mkState [] [] env []))
            (fun _ st' => env ⊆ environ st') (fun st' => env ⊆ environ st'))
    as Hrun.
  { apply H; try done; [|by destruct vars_].
    intros st HJ.
    assert (env ⊆ environ (process_buffr st).2) as Hst.
    { destruct (process_buffr_environ st) as [->|(x & y & Hx & -> & _)];
        [done|].
      etrans; [exact HJ|]. by apply insert_subseteq. }
    by destruct (process_buffr st) as [[[]|e|] st']. }
  by destruct (Expander_init _ _ _) as [[[]|e|] st'].
Qed.

(** Without an ["="] in the input the environment is left exactly as it
    was, whether the expansion returns or raises. *)
Theorem environ_unchanged_without_assignment (vars_ : list ascii) env :
  Str.contains "=" vars_ = false ->
  (expandvars vars_ env).2 = env.
Proof.
  intros Hvars. unfold expandvars. destruct (negb _); [done|]. unfold Expander.
  pose proof (invariant_Expander_init
                (fun st => Str.contains "=" (_buffr st) = false
                           /\ Str.contains "=" (variter st) = false
                           /\ environ st = env)
                (fun c => Ascii.eqb "=" c = false)
                (fun st => environ st = env)) as H.
  assert (holds (Expander_init (fuel_for vars_) vars_ (mkState [] [] env []))
            (fun _ st' => Str.contains "=" (_buffr st') = false
                          /\ Str.contains "=" (variter st') = false
                          /\ environ st' = env)
            (fun st' => environ st' = env)) as Hrun.
  { apply H; clear H.
    - by intros st (_ & _ & ?).
    - intros st (Hb & Hit & Henv).
      pose proof (process_buffr_clears st) as Hclr.
      assert (environ (process_buffr st).2 = env) as Hst.
      { destruct (process_buffr_environ st) as [->|(x & y & _ & _ & Hc)];
          [done | congruence]. }
      destruct (process_buffr st) as [[[]|e|] st']; simpl in *; try done.
      destruct Hclr as (-> & -> & _). done.
    - intros r b env' c it (Hb & Hit & Henv). simpl in *.
      apply orb_false_iff in Hit as [Hc Hit]. done.
    - intros r b env' it c (Hb & Hit & Henv) Hc. simpl in *.
      rewrite contains_app, Hb. simpl. by rewrite Hc.
    - by intros r b env' it c (Hb & Hit & Henv).
    - intros it [pre ->]. simpl. rewrite contains_app in Hvars.
      apply orb_false_iff in Hvars as [_ Hit]. done.
    - destruct vars_ as [|c it]; [done|]. simpl in Hvars.
      by apply orb_false_iff in Hvars as [Hc _]. }
  by destruct (Expander_init _ _ _) as [[[]|e|] st']; simpl in *;
    try done; destruct Hrun as (_ & _ & ?).
Qed.

Lemma environ_unchanged_without_assignment_witness :
  (expandvars (lit "${X:-v}$Y ${Z") {[lit "Y" := lit "1"]}).2
  = {[lit "Y" := lit "1"]}.
Proof.
  apply (environ_unchanged_without_assignment (lit "${X:-v}$Y ${Z")).
  reflexivity.
Defined.

(* ===================================================================== *)
(** ** References separated by text *)
(* ===================================================================== *)

Lemma process_buffr_flush (name r it : list ascii) env :
  Str.contains ":" name = false ->
  process_buffr (mkState r name env it)
  = (Ret tt, mkState (r ++ lookup_value env name) [] env it).
Proof.
  intros Hname. unfold process_buffr, lookup_value. simpl.
  destruct name as [|c name]; simpl; [by rewrite app_nil_r|].
  simpl in Hname. by rewrite Hname.
Qed.

Lemma when_process_buffr_flush (name r it : list ascii) env :
  Str.contains ":" name = false ->
  (if negb (Str.is_empty name) then process_buffr else ret tt)
    (mkState r name env it)
  = (Ret tt, mkState (r ++ lookup_value env name) [] env it).
Proof.
  intros Hname. destruct name as [|c name].
  - unfold lookup_value. simpl. by rewrite app_nil_r.
  - by apply process_buffr_flush.
Qed.

Lemma expand_val_while_text (text : list ascii) :
  Str.contains "$" text = false ->
  forall (fuel : nat) (c : ascii) (rest r : list ascii) env,
    Ascii.eqb c "$" = false ->
    (S (length text) < fuel)%nat ->
    expand_val_while fuel (Some c) (mkState r [] env (text ++ "$"%char :: rest))
    = (Ret (Some "$"%char), mkState (r ++ c :: text) [] env rest).
Proof.
  induction text as [|d text IH]; intros Htext fuel c rest r env Hc Hfuel;
    (destruct fuel as [|fuel]; [lia|]); rewrite expand_val_while_S, Hc; simpl.
  - destruct fuel as [|fuel]; [simpl in Hfuel; lia|].
    by rewrite expand_val_while_S.
  - simpl in Htext. apply orb_false_iff in Htext as [Hd Htext].
    rewrite IH by (done || by rewrite Ascii.eqb_sym || simpl in Hfuel; lia).
    by rewrite <- app_assoc.
Qed.

Lemma expand_val_while_text_end (text : list ascii) :
  Str.contains "$" text = false ->
  forall (fuel : nat) (c : ascii) (r : list ascii) env,
    Ascii.eqb c "$" = false ->
    (S (length text) < fuel)%nat ->
    expand_val_while fuel (Some c) (mkState r [] env text)
    = (Ret None, mkState (r ++ c :: text) [] env []).
Proof.
  induction text as [|d text IH]; intros Htext fuel c r env Hc Hfuel;
    (destruct fuel as [|fuel]; [lia|]); rewrite expand_val_while_S, Hc; simpl.
  - destruct fuel as [|fuel]; [simpl in Hfuel; lia|].
    by rewrite expand_val_while_S.
  - simpl in Htext. apply orb_false_iff in Htext as [Hd Htext].
    rewrite IH by (done || by rewrite Ascii.eqb_sym || simpl in Hfuel; lia).
    by rewrite <- app_assoc.
Qed.

(** [expand_val] on literal text up to the next sigil: it resolves what the
    buffer holds, copies the text and hands over to [expand_var]. *)
Lemma expand_val_text (text : list ascii) (fuel : nat) (c : ascii)
    (name rest r : list ascii) env :
  Str.contains "$" (c :: text) = false -> Str.contains ":" name = false ->
  (S (length text) < fuel)%nat ->
  expand_val (S fuel) (Some c) (mkState r name env (text ++ "$"%char :: rest))
  = expand_var fuel (mkState (r ++ lookup_value env name ++ c :: text) [] env rest).
Proof.
  intros [Hc Htext]%orb_false_iff Hname Hfuel.
  rewrite expand_val_S. simpl. rewrite when_process_buffr_flush by done.
  rewrite expand_val_while_text by (done || by rewrite Ascii.eqb_sym).
  by rewrite <- app_assoc.
Qed.

(** [expand_val] on literal text up to the end of the input. *)
Lemma expand_val_text_end (text : list ascii) (fuel : nat) (c : ascii)
    (name r : list ascii) env :
  Str.contains "$" (c :: text) = false -> Str.contains ":" name = false ->
  (S (length text) < fuel)%nat ->
  expand_val (S fuel) (Some c) (mkState r name env text)
  = (Ret tt, mkState (r ++ lookup_value env name ++ c :: text) [] env []).
Proof.
  intros [Hc Htext]%orb_false_iff Hname Hfuel.
  rewrite expand_val_S. simpl. rewrite when_process_buffr_flush by done.
  rewrite expand_val_while_text_end by (done || by rewrite Ascii.eqb_sym).
  simpl. by rewrite <- app_assoc.
Qed.

Lemma valid_chars_no_colon (name : list ascii) :
  forallb _valid_char name = true -> Str.contains ":" name = false.
Proof. by apply contains_forallb. Qed.

(** [expand_var] on a simple name that a character [c] ends. *)
Lemma expand_var_simple (name : list ascii) (fuel : nat) (c : ascii)
    (rest r : list ascii) env :
  forallb _valid_char name = true -> _valid_char c = false ->
  (name = [] -> Ascii.eqb c "{" = false) ->
  (length name <= fuel)%nat ->
  expand_var (S (S fuel)) (mkState r [] env (name ++ c :: rest))
  = (when (Ascii.eqb c "$") (expand_var (S fuel));;
     expand_val (S fuel) (Some c))
      (mkState (r ++ lookup_value env name) [] env rest).
Proof.
  intros Hname Hc Hbrace Hfuel. rewrite expand_var_S.
  destruct name as [|a name]; simpl.
  - rewrite (Hbrace eq_refl). simpl.
    rewrite expand_var_while_S, Hc. simpl.
    unfold lookup_value. simpl. by rewrite app_nil_r.
  - simpl in Hname. apply andb_true_iff in Hname as [Ha Hname].
    rewrite (valid_char_not a "{") by done. simpl.
    rewrite expand_var_while_name by (done || simpl in Hfuel; lia).
    simpl. rewrite process_buffr_flush; [done|].
    apply (valid_chars_no_colon (a :: name)). simpl. by rewrite Ha.
Qed.

(** [expand_var] on a simple name that the end of the input ends. *)
Lemma expand_var_simple_end (name : list ascii) (fuel : nat)
    (r : list ascii) env :
  forallb _valid_char name = true -> name <> [] ->
  (length name <= fuel)%nat ->
  expand_var (S (S fuel)) (mkState r [] env name)
  = (Ret tt, mkState (r ++ lookup_value env name) [] env []).
Proof.
  intros Hname Hne Hfuel. rewrite expand_var_S.
  destruct name as [|a name]; [done|]. simpl.
  simpl in Hname. apply andb_true_iff in Hname as [Ha Hname].
  rewrite (valid_char_not a "{") by done. simpl.
  rewrite expand_var_while_name_end by (done || simpl in Hfuel; lia).
  simpl. rewrite process_buffr_flush; [done|].
  apply (valid_chars_no_colon (a :: name)). simpl. by rewrite Ha.
Qed.

(** [expand_var] on a braced name that a character [c] follows. *)
Lemma expand_var_braced (name : list ascii) (fuel : nat) (c : ascii)
    (rest r : list ascii) env :
  Str.contains "}" name = false ->
  (length name < fuel)%nat ->
  expand_var (S (S fuel))
    (mkState r [] env ("{"%char :: name ++ "}"%char :: c :: rest))
  = (when (Ascii.eqb c "$") (expand_var fuel);;
     expand_val fuel (Some c))
      (mkState r name env rest).
Proof.
  intros Hname Hfuel. rewrite expand_var_S. simpl.
  rewrite expand_modifier_var_S. simpl.
  by rewrite expand_modifier_var_while_closed.
Qed.

(** [expand_var] on a braced name at the end of the input. *)
Lemma expand_var_braced_end (name : list ascii) (fuel : nat)
    (r : list ascii) env :
  Str.contains ":" name = false -> Str.contains "}" name = false ->
  (length name < fuel)%nat ->
  expand_var (S (S fuel)) (mkState r [] env ("{"%char :: name ++ ["}"%char]))
  = (Ret tt, mkState (r ++ lookup_value env name) [] env []).
Proof.
  intros Hcolon Hname Hfuel. rewrite expand_var_S. simpl.
  rewrite expand_modifier_var_S. simpl.
  rewrite expand_modifier_var_while_closed by done. simpl.
  by rewrite process_buffr_flush.
Qed.

Lemma contains_sigil_cons (c : ascii) (t : list ascii) :
  Str.contains "$" (c :: t) = false -> Ascii.eqb c "$" = false.
Proof.
  simpl. intros [Hc _]%orb_false_iff. by rewrite Ascii.eqb_sym.
Qed.

Lemma expand_var_segments (segs : list (reference * list ascii)) :
  forall (ref : reference) (text : list ascii),
    well_formed ((ref, text) :: segs) ->
    forall (fuel : nat) (r : list ascii) env,
      (2 * length (reference_text ref ++ text ++ render segs) + 2 <= fuel)%nat ->
      expand_var fuel
        (mkState r [] env (reference_text ref ++ text ++ render segs))
      = (Ret tt, mkState (r ++ expansion env ((ref, text) :: segs)) [] env []).
Proof.
  induction segs as [|[ref2 text2] segs IH];
    intros ref text [(Htext & Href & Hlast) Hwf] fuel r env Hfuel.
  - (* the last reference and its text *)
    simpl render in *. simpl expansion. rewrite !app_nil_r in *.
    destruct fuel as [|[|fuel]]; [lia | lia |].
    destruct ref as [name|name]; simpl in Href |- *.
    + destruct Href as [Hname Hnext]. destruct text as [|c t].
      * rewrite ?app_nil_r in *. simpl in Hfuel.
        by apply expand_var_simple_end; [..|lia].
      * destruct Hnext as [Hc Hbrace]. rewrite length_app in Hfuel.
        simpl in Hfuel.
        rewrite expand_var_simple by (done || lia). simpl.
        rewrite (contains_sigil_cons c t) by done. simpl.
        rewrite expand_val_text_end by (done || lia).
        unfold lookup_value at 2. simpl. by rewrite <- app_assoc.
    + destruct Href as [Hcolon Hbrace]. destruct text as [|c t].
      * rewrite ?app_nil_r in *. simpl in Hfuel. rewrite length_app in Hfuel.
        simpl in Hfuel. by apply expand_var_braced_end; [..|lia].
      * rewrite <- app_assoc. simpl. simpl in Hfuel.
        rewrite !length_app in Hfuel. simpl in Hfuel.
        rewrite expand_var_braced by (done || lia). simpl.
        rewrite (contains_sigil_cons c t) by done. simpl.
        destruct fuel as [|fuel]; [lia|].
        by rewrite expand_val_text_end by (done || lia).
  - (* a reference, its text, and more references *)
    destruct text as [|c t]; [by destruct Hlast|].
    change (render ((ref2, text2) :: segs))
      with ("$"%char :: reference_text ref2 ++ text2 ++ render segs) in *.
    destruct fuel as [|[|fuel]]; [lia | lia |].
    simpl expansion.
    destruct ref as [name|name]; simpl in Href |- *.
    + destruct Href as [Hname [Hc Hbrace]].
      rewrite length_app in Hfuel. simpl in Hfuel.
      rewrite length_app in Hfuel. simpl in Hfuel.
      rewrite expand_var_simple by (done || lia). simpl.
      rewrite (contains_sigil_cons c t) by done. simpl.
      rewrite expand_val_text by (done || lia).
      rewrite IH by (done || lia).
      unfold lookup_value at 2. simpl. f_equal. f_equal.
      by rewrite <- !app_assoc.
    + destruct Href as [Hcolon Hbrace].
      rewrite <- app_assoc. simpl. simpl in Hfuel.
      rewrite !length_app in Hfuel. simpl in Hfuel.
      rewrite length_app in Hfuel. simpl in Hfuel.
      rewrite expand_var_braced by (done || lia). simpl.
      rewrite (contains_sigil_cons c t) by done. simpl.
      destruct fuel as [|fuel]; [lia|].
      rewrite expand_val_text by (done || lia).
      rewrite IH by (done || lia).
      f_equal. f_equal. by rewrite <- !app_assoc.
Qed.

Lemma fuel_for_cons (c : ascii) (it : list ascii) :
  (2 * length it + 3 <= fuel_for (c :: it))%nat.
Proof. unfold fuel_for. simpl. lia. Qed.

(** References without modifiers, [$NAME] or [${NAME}], each followed by
    literal text and only the last one allowed to end the input, expand to
    the values of the names, the empty string for a name that is unset,
    with the texts between them as they are.  The sigil of an empty simple
    name disappears with it, and the environment is unchanged. *)
Theorem references_separated_by_text
    (segs : list (reference * list ascii)) env :
  well_formed segs ->
  expandvars (render segs) env = (Ret (expansion env segs), env).
Proof.
  intros Hwf. destruct segs as [|[ref text] segs]; [done|].
  unfold expandvars, Expander. simpl.
  pose proof (fuel_for_cons "$" (reference_text ref ++ text ++ render segs)).
  rewrite expand_var_segments by (done || lia). done.
Qed.

Lemma references_separated_by_text_witness :
  render [(Simple (lit "HOME"), lit "/bin:"); (Braced (lit "EXTRA"), lit ":");
          (Simple (lit ""), lit " (x)")]
  = lit "$HOME/bin:${EXTRA}:$ (x)"
  /\ expandvars
       (render [(Simple (lit "HOME"), lit "/bin:");
                (Braced (lit "EXTRA"), lit ":");
                (Simple (lit ""), lit " (x)")])
       {[lit "HOME" := lit "/root"]}
     = (Ret (lit "/root/bin:: (x)"), {[lit "HOME" := lit "/root"]}).
Proof.
  split; [reflexivity|].
  rewrite (references_separated_by_text
             [(Simple (lit "HOME"), lit "/bin:");
              (Braced (lit "EXTRA"), lit ":");
              (Simple (lit ""), lit " (x)")]
             {[lit "HOME" := lit "/root"]}); [reflexivity|].
  simpl. repeat split; reflexivity || discriminate || (intros; discriminate).
Defined.

(** The class itself, unlike [expandvars], also expands an input that
    begins with literal text: the text is copied and the references after it
    are expanded as above.  In particular an input without a sigil is its
    own expansion. *)
Theorem Expander_text_then_references (text : list ascii)
    (segs : list (reference * list ascii)) env :
  Str.contains "$" text = false -> well_formed segs ->
  Expander (text ++ render segs) env
  = (Ret (text ++ expansion env segs), env).
Proof.
  intros Htext Hwf. unfold Expander.
  destruct text as [|c t].
  - destruct segs as [|[ref text] segs]; [done|]. simpl.
    pose proof (fuel_for_cons "$" (reference_text ref ++ text ++ render segs)).
    rewrite expand_var_segments by (done || lia). done.
  - pose proof (fuel_for_cons c (t ++ render segs)) as Hfuel.
    destruct (fuel_for ((c :: t) ++ render segs)) as [|fuel] eqn:Hf;
      [simpl in *; lia|].
    simpl app in *. rewrite Hf in Hfuel.
    rewrite length_app in Hfuel. simpl Expander_init.
    rewrite (contains_sigil_cons c t) by done.
    destruct segs as [|[ref text] segs].
    + simpl render in *. rewrite ?app_nil_r in *. simpl in Hfuel.
      rewrite expand_val_text_end by (done || lia).
      simpl. by rewrite ?app_nil_r.
    + change (render ((ref, text) :: segs))
        with ("$"%char :: reference_text ref ++ text ++ render segs) in *.
      simpl in Hfuel. rewrite length_app in Hfuel.
      rewrite expand_val_text by (done || lia).
      rewrite expand_var_segments by (done || rewrite length_app; lia). done.
Qed.

Lemma Expander_text_then_references_witness :
  Expander (lit "cd " ++ render [(Simple (lit "HOME"), lit "/bin")])
    {[lit "HOME" := lit "/root"]}
  = (Ret (lit "cd /root/bin"), {[lit "HOME" := lit "/root"]})
  /\ Expander (lit "no reference" ++ render []) ∅
     = (Ret (lit "no reference"), ∅).
Proof.
  split.
  - rewrite (Expander_text_then_references (lit "cd ")
               [(Simple (lit "HOME"), lit "/bin")] {[lit "HOME" := lit "/root"]});
      [reflexivity | reflexivity |].
    simpl. repeat split; reflexivity || discriminate || (intros; discriminate).
  - rewrite (Expander_text_then_references (lit "no reference") [] ∅);
      [reflexivity | reflexivity | exact I].
Defined.

(* ===================================================================== *)
(** ** The other branches of the slice code *)
(* ===================================================================== *)

(** A modifier without a second colon that is not alphanumeric and not one
    of the WORD forms, such as [?msg], [1.5], [1_0] or [#pattern], is
    refused with ["bad substitution"], for every NAME and environment. *)
Theorem unsupported_modifier (NAME OFFSET : list ascii) env :
  braced_name NAME -> Str.contains ":" OFFSET = false -> braced_word OFFSET ->
  no_word_form OFFSET ->
  Str.isalnum (Str.strip OFFSET) = false ->
  expandvars (lit "${" ++ NAME ++ lit ":" ++ OFFSET ++ lit "}") env
  = (Raise BadSubstitution, env).
Proof.
  intros [HN1 HN2] HO1 HO2 (Hp & Hm & He) Ha.
  rewrite expandvars_reference by done.
  rewrite process_buffr_one_part by done.
  unfold one_part. by rewrite Ha.
Qed.

Lemma unsupported_modifier_witness :
  expandvars (lit "${" ++ lit "FOO" ++ lit ":" ++ lit "?not set" ++ lit "}")
    {[lit "FOO" := lit "1"]}
  = (Raise BadSubstitution, {[lit "FOO" := lit "1"]})
  /\ expandvars (lit "${" ++ lit "FOO" ++ lit ":" ++ lit "1_0" ++ lit "}") ∅
     = (Raise BadSubstitution, ∅).
Proof.
  split.
  - apply (unsupported_modifier (lit "FOO") (lit "?not set"));
      repeat split; reflexivity.
  - apply (unsupported_modifier (lit "FOO") (lit "1_0"));
      repeat split; reflexivity.
Defined.

(** An alphanumeric modifier that is not an integer literal, such as [abc]
    or [1a], is ignored: the reference yields the whole value of NAME. *)
Theorem offset_not_integer_ignored (NAME OFFSET : list ascii) env :
  braced_name NAME -> Str.contains ":" OFFSET = false -> braced_word OFFSET ->
  Str.isalnum (Str.strip OFFSET) = true ->
  Str.int (Str.strip OFFSET) = None ->
  expandvars (lit "${" ++ NAME ++ lit ":" ++ OFFSET ++ lit "}") env
  = (Ret (default [] (env !! Str.strip NAME)), env).
Proof.
  intros [HN1 HN2] HO1 HO2 Ha Hi.
  rewrite expandvars_reference by done.
  rewrite process_buffr_one_part;
    try done; try (by apply (all_chars_startswith Char.isalnum)).
  unfold one_part, _isint. by rewrite Ha, Hi.
Qed.

Lemma offset_not_integer_ignored_witness :
  expandvars (lit "${" ++ lit "FOO" ++ lit ":" ++ lit "1a" ++ lit "}")
    {[lit "FOO" := lit "value"]}
  = (Ret (lit "value"), {[lit "FOO" := lit "value"]}).
Proof.
  rewrite (offset_not_integer_ignored (lit "FOO") (lit "1a"));
    [reflexivity | split; reflexivity | reflexivity ..].
Defined.

(** In the two-part form a LENGTH that is empty or purely alphabetic makes
    the whole reference yield nothing, whatever NAME is bound to; the OFFSET
    is not looked at. *)
Theorem length_not_a_number_yields_nothing
    (NAME OFFSET LENGTH : list ascii) env :
  braced_name NAME -> slice_offset OFFSET -> braced_word LENGTH ->
  Str.is_empty (Str.strip LENGTH) || Str.isalpha (Str.strip LENGTH) = true ->
  expandvars (lit "${" ++ NAME ++ lit ":" ++ OFFSET ++ lit ":" ++ LENGTH
                ++ lit "}") env
  = (Ret [], env).
Proof.
  intros HN HO HL Hz. pose proof HO as (HO1 & HO2 & _).
  rewrite expandvars_slice_reference by done.
  rewrite process_buffr_two_part by (done || apply HN).
  unfold two_part. by rewrite Hz.
Qed.

Lemma length_not_a_number_yields_nothing_witness :
  expandvars (lit "${" ++ lit "FOO" ++ lit ":" ++ lit "!!" ++ lit ":"
                ++ lit "abc" ++ lit "}") {[lit "FOO" := lit "value"]}
  = (Ret [], {[lit "FOO" := lit "value"]})
  /\ expandvars (lit "${" ++ lit "FOO" ++ lit ":" ++ lit "1" ++ lit ":"
                   ++ lit " " ++ lit "}") {[lit "FOO" := lit "value"]}
     = (Ret [], {[lit "FOO" := lit "value"]}).
Proof.
  split.
  - apply (length_not_a_number_yields_nothing (lit "FOO") (lit "!!") (lit "abc"));
      repeat split; reflexivity.
  - apply (length_not_a_number_yields_nothing (lit "FOO") (lit "1") (lit " "));
      repeat split; reflexivity.
Defined.

Lemma slice_window (v : list ascii) (k n : Z) :
  0 <= k -> 0 <= n ->
  Str.slice v (Some k) (Some (k + n))
  = take (Z.to_nat n) (drop (Z.to_nat k) v).
Proof.
  intros Hk Hn. unfold Str.slice, Str.clamp.
  rewrite (proj2 (Z.ltb_ge k 0) Hk).
  rewrite (proj2 (Z.ltb_ge (k + n) 0)) by lia.
  set (len := Z.of_nat (length v)).
  destruct (Z.le_gt_cases k len) as [Hle|Hgt].
  - rewrite (Z.min_l k) by done.
    destruct (Z.le_gt_cases (k + n) len).
    + rewrite Z.min_l by done. f_equal. lia.
    + rewrite Z.min_r by lia.
      rewrite !take_ge; [done | | ]; rewrite length_drop; lia.
  - rewrite !Z.min_r, Z.sub_diag by lia.
    rewrite !(drop_ge v) by lia. by rewrite !take_nil.
Qed.

(** A two-part slice with numbers for both of its parts yields a window of
    the value: LENGTH characters from index OFFSET on, fewer where the value
    ends before, never more than LENGTH. *)
Theorem slice_is_a_window (NAME OFFSET LENGTH : list ascii) (n : Z) env :
  braced_name NAME -> slice_offset OFFSET -> braced_word LENGTH ->
  decimal_digits (Str.strip OFFSET) = true ->
  Str.int (Str.strip LENGTH) = Some n -> 0 <= n ->
  exists (k : Z) (w : list ascii),
    Str.int (Str.strip OFFSET) = Some k /\ 0 <= k
    /\ expandvars (lit "${" ++ NAME ++ lit ":" ++ OFFSET ++ lit ":" ++ LENGTH
                     ++ lit "}") env
       = (Ret w, env)
    /\ w = take (Z.to_nat n)
             (drop (Z.to_nat k) (default [] (env !! Str.strip NAME)))
    /\ Z.of_nat (length w) <= n.
Proof.
  intros HN HO HL Ho Hz Hn. pose proof HO as (HO1 & HO2 & _).
  destruct (int_decimal _ Ho) as (k & Hk & Hk0).
  exists k, (take (Z.to_nat n)
               (drop (Z.to_nat k) (default [] (env !! Str.strip NAME)))).
  repeat split; try done.
  - rewrite expandvars_slice_reference by done.
    rewrite process_buffr_two_part by (done || apply HN).
    rewrite (two_part_reaches_slicing _ _ _ n) by done.
    rewrite (all_chars_not_empty _ _ Ho), (decimal_digits_isdigit _ Ho).
    simpl. rewrite Hk. simpl. by rewrite slice_window.
  - rewrite length_take. lia.
Qed.

Lemma slice_is_a_window_witness :
  let env : gmap (list ascii) (list ascii) := {[lit "FOO" := lit "abcdef"]} in
  exists (k : Z) (w : list ascii),
    Str.int (Str.strip (lit "4")) = Some k /\ 0 <= k
    /\ expandvars (lit "${" ++ lit "FOO" ++ lit ":" ++ lit "4" ++ lit ":"
                     ++ lit "10" ++ lit "}") env
       = (Ret w, env)
    /\ w = take (Z.to_nat 10)
             (drop (Z.to_nat k) (default [] (env !! Str.strip (lit "FOO"))))
    /\ Z.of_nat (length w) <= 10.
Proof.
  intros env.
  apply (slice_is_a_window (lit "FOO") (lit "4") (lit "10") 10 env);
    repeat split; reflexivity || lia.
Defined.

(* ===================================================================== *)
(** ** The result so far and the fuel do not matter *)
(* ===================================================================== *)

Lemma framed_bind {A B} (m : M A) (k : A -> M B) :
  framed m -> (forall a, framed (k a)) -> framed (bind m k).
Proof.
  intros Hm Hk r st. unfold bind. rewrite Hm.
  destruct (m st) as [[a|e|] st']; simpl; [apply Hk | done | done].
Qed.

Lemma framed_ret {A} (a : A) : framed (ret a).
Proof. done. Qed.

Lemma framed_raise {A} (e : ValueError) : framed (@raise A e).
Proof. done. Qed.

Lemma framed_out_of_fuel {A} : framed (@out_of_fuel A).
Proof. done. Qed.

Lemma framed_get_buffr : framed get_buffr.
Proof. done. Qed.

Lemma framed_buffr_append (c : ascii) : framed (buffr_append c).
Proof. done. Qed.

Lemma framed_buffr_clear : framed buffr_clear.
Proof. done. Qed.

Lemma framed_result_append (c : ascii) : framed (result_append c).
Proof. intros r st. unfold result_append, shift. simpl. by rewrite app_assoc. Qed.

Lemma framed_result_extend (s : list ascii) : framed (result_extend s).
Proof. intros r st. unfold result_extend, shift. simpl. by rewrite app_assoc. Qed.

Lemma framed_environ_get (x d : list ascii) : framed (environ_get x d).
Proof. done. Qed.

Lemma framed_environ_contains (x : list ascii) : framed (environ_contains x).
Proof. done. Qed.

Lemma framed_environ_update (x y : list ascii) : framed (environ_update x y).
Proof. done. Qed.

Lemma framed_next : framed next.
Proof. intros r [res b env [|c it]]; done. Qed.

Lemma framed_when (b : bool) (m : M unit) : framed m -> framed (when b m).
Proof. intros Hm. destruct b; [exact Hm | done]. Qed.

Lemma framed_int (s : list ascii) : framed (int s).
Proof. unfold int. by destruct (Str.int s). Qed.

Ltac framed_step :=
  first
    [ apply framed_ret | apply framed_raise | apply framed_out_of_fuel
    | apply framed_get_buffr | apply framed_buffr_append
    | apply framed_buffr_clear | apply framed_result_append
    | apply framed_result_extend | apply framed_environ_get
    | apply framed_environ_contains | apply framed_environ_update
    | apply framed_next | apply framed_int
    | apply framed_when
    | apply framed_bind; [|intros ?]
    | match goal with
      | |- framed (if ?b then _ else _) => destruct b
      | |- framed (let '(_, _) := ?p in _) => destruct p
      | |- framed (match ?x with _ => _ end) => destruct x
      end ].

Lemma framed_process_buffr : framed process_buffr.
Proof. unfold process_buffr. repeat framed_step. Qed.

Lemma framed_next_or_done : framed _next_or_done.
Proof.
  unfold _next_or_done.
  repeat first [apply framed_process_buffr | framed_step].
Qed.

Lemma framed_expand_var_while (fuel : nat) :
  forall c, framed (expand_var_while fuel c).
Proof.
  induction fuel as [|fuel IH]; intros c; [apply framed_out_of_fuel|].
  rewrite expand_var_while_S.
  repeat first [apply framed_next_or_done | apply IH | framed_step].
Qed.

Lemma framed_expand_modifier_var_while (fuel : nat) :
  framed (expand_modifier_var_while fuel).
Proof.
  induction fuel as [|fuel IH]; [apply framed_out_of_fuel|].
  rewrite expand_modifier_var_while_S.
  repeat first [apply IH | framed_step].
Qed.

Lemma framed_expand_val_while (fuel : nat) :
  forall c, framed (expand_val_while fuel c).
Proof.
  induction fuel as [|fuel IH]; intros c; [apply framed_out_of_fuel|].
  rewrite expand_val_while_S.
  repeat first [apply framed_next_or_done | apply IH | framed_step].
Qed.

Lemma framed_expand_methods (fuel : nat) :
  framed (expand_var fuel) /\ framed (expand_modifier_var fuel)
  /\ (forall c, framed (expand_val fuel c)).
Proof.
  induction fuel as [|fuel (IHvar & IHmod & IHval)];
    [repeat split; intros; apply framed_out_of_fuel|].
  refine (conj _ (conj _ _)); [| |intros c];
    rewrite ?expand_var_S, ?expand_modifier_var_S, ?expand_val_S;
    repeat first
      [ apply framed_process_buffr | apply framed_next_or_done
      | apply framed_expand_var_while | apply framed_expand_modifier_var_while
      | apply framed_expand_val_while
      | apply IHvar | apply IHmod | apply IHval | framed_step ].
Qed.

Lemma bind_stable {A B} (m1 m2 : M A) (k1 k2 : A -> M B) (st : state) :
  finished (bind m1 k1 st) ->
  (finished (m1 st) -> m2 st = m1 st) ->
  (forall a st', finished (k1 a st') -> k2 a st' = k1 a st') ->
  bind m2 k2 st = bind m1 k1 st.
Proof.
  unfold bind, finished. intros Hf Hm Hk.
  destruct (m1 st) as [[a|e|] st'] eqn:E; simpl in *.
  - rewrite Hm by done. by apply Hk.
  - by rewrite Hm.
  - done.
Qed.

Lemma when_stable (b : bool) (m1 m2 : M unit) (st : state) :
  finished (when b m1 st) ->
  (finished (m1 st) -> m2 st = m1 st) ->
  when b m2 st = when b m1 st.
Proof. destruct b; simpl; auto. Qed.

Lemma expand_var_while_fuel (fuel : nat) :
  forall (c : ascii) (st : state),
    finished (expand_var_while fuel c st) ->
    forall fuel', (fuel <= fuel')%nat ->
      expand_var_while fuel' c st = expand_var_while fuel c st.
Proof.
  induction fuel as [|fuel IH]; intros c st Hf fuel' Hle; [by destruct Hf|].
  destruct fuel' as [|fuel']; [lia|].
  rewrite expand_var_while_S in *. rewrite expand_var_while_S.
  destruct (_valid_char c); [|done].
  apply bind_stable; [done | done | intros [] st1 H1].
  apply bind_stable; [done | done | intros [ch|] st2 H2]; [|done].
  apply IH; [done | lia].
Qed.

Lemma expand_modifier_var_while_fuel (fuel : nat) :
  forall (st : state),
    finished (expand_modifier_var_while fuel st) ->
    forall fuel', (fuel <= fuel')%nat ->
      expand_modifier_var_while fuel' st = expand_modifier_var_while fuel st.
Proof.
  induction fuel as [|fuel IH]; intros st Hf fuel' Hle; [by destruct Hf|].
  destruct fuel' as [|fuel']; [lia|].
  rewrite expand_modifier_var_while_S in *. rewrite expand_modifier_var_while_S.
  apply bind_stable; [done | done | intros [ch|] st1 H1]; [|done].
  destruct (Ascii.eqb ch "}"); [done|].
  apply bind_stable; [done | done | intros [] st2 H2].
  apply IH; [done | lia].
Qed.

Lemma expand_val_while_fuel (fuel : nat) :
  forall (c : option ascii) (st : state),
    finished (expand_val_while fuel c st) ->
    forall fuel', (fuel <= fuel')%nat ->
      expand_val_while fuel' c st = expand_val_while fuel c st.
Proof.
  induction fuel as [|fuel IH]; intros c st Hf fuel' Hle; [by destruct Hf|].
  destruct fuel' as [|fuel']; [lia|].
  rewrite expand_val_while_S in *. rewrite expand_val_while_S.
  destruct c as [ch|]; [|done].
  destruct (negb (Ascii.eqb ch "$")); [|done].
  apply bind_stable; [done | done | intros [] st1 H1].
  apply bind_stable; [done | done | intros c' st2 H2].
  apply IH; [done | lia].
Qed.

(** A method that ended with some fuel does the same with more. *)
Lemma expand_methods_fuel (fuel : nat) :
  (forall st, finished (expand_var fuel st) ->
     forall fuel', (fuel <= fuel')%nat ->
       expand_var fuel' st = expand_var fuel st)
  /\ (forall st, finished (expand_modifier_var fuel st) ->
        forall fuel', (fuel <= fuel')%nat ->
          expand_modifier_var fuel' st = expand_modifier_var fuel st)
  /\ (forall c st, finished (expand_val fuel c st) ->
        forall fuel', (fuel <= fuel')%nat ->
          expand_val fuel' c st = expand_val fuel c st).
Proof.
  induction fuel as [|fuel (IHvar & IHmod & IHval)];
    [repeat split; intros; by exfalso|].
  refine (conj _ (conj _ _)).
  - intros st Hf fuel' Hle. destruct fuel' as [|fuel']; [lia|].
    rewrite expand_var_S in *. rewrite expand_var_S.
    apply bind_stable; [done | done | intros b st0 H0].
    apply bind_stable; [done | done | intros [] st1 H1].
    apply bind_stable; [done | done | intros [c|] st2 H2]; [|done].
    destruct (Ascii.eqb c "{"); [apply IHmod; [done | lia]|].
    apply bind_stable;
      [done | intros; apply expand_var_while_fuel; [done | lia]
      | intros [d|] st3 H3]; [|done].
    apply bind_stable; [done | done | intros [] st4 H4].
    apply bind_stable;
      [done | intros; apply when_stable; [done|];
              intros; apply IHvar; [done | lia]
      | intros [] st5 H5].
    apply IHval; [done | lia].
  - intros st Hf fuel' Hle. destruct fuel' as [|fuel']; [lia|].
    rewrite expand_modifier_var_S in *. rewrite expand_modifier_var_S.
    apply bind_stable; [done | done | intros b st0 H0].
    apply bind_stable; [done | done | intros [] st1 H1].
    apply bind_stable;
      [done | intros; apply expand_modifier_var_while_fuel; [done | lia]
      | intros [] st2 H2].
    apply bind_stable; [done | done | intros [c|] st3 H3]; [|done].
    apply bind_stable;
      [done | intros; apply when_stable; [done|];
              intros; apply IHvar; [done | lia]
      | intros [] st4 H4].
    apply IHval; [done | lia].
  - intros c st Hf fuel' Hle. destruct fuel' as [|fuel']; [lia|].
    rewrite expand_val_S in *. rewrite expand_val_S.
    apply bind_stable; [done | done | intros b st0 H0].
    apply bind_stable; [done | done | intros [] st1 H1].
    apply bind_stable;
      [done | intros; apply expand_val_while_fuel; [done | lia]
      | intros [d|] st2 H2]; [|done].
    apply IHvar; [done | lia].
Qed.

Lemma post_finished {A} (r : outcome A * state) (Q : A -> state -> Prop) :
  post r Q -> finished r.
Proof. by destruct r as [[a|e|] st]. Qed.

(** With the fuel the input needs, any larger fuel gives the same run. *)
Lemma expand_var_any_fuel (fuel fuel' : nat) (st : state) :
  (2 * length (variter st) + 2 <= fuel)%nat ->
  (2 * length (variter st) + 2 <= fuel')%nat ->
  expand_var fuel st = expand_var fuel' st.
Proof.
  intros H H'. set (n := (2 * length (variter st) + 2)%nat) in *.
  destruct (expand_methods_exhausted n) as (Hex & _ & _).
  destruct (expand_methods_fuel n) as (Hfu & _ & _).
  pose proof (post_finished _ _ (Hex st (le_n _))) as Hfin.
  by rewrite (Hfu st Hfin fuel), (Hfu st Hfin fuel').
Qed.

Lemma expand_val_any_fuel (fuel fuel' : nat) (c : ascii) (st : state) :
  (2 * length (variter st) + 3 <= fuel)%nat ->
  (2 * length (variter st) + 3 <= fuel')%nat ->
  expand_val fuel (Some c) st = expand_val fuel' (Some c) st.
Proof.
  intros H H'. set (n := (2 * length (variter st) + 3)%nat) in *.
  destruct (expand_methods_exhausted n) as (_ & _ & Hex).
  destruct (expand_methods_fuel n) as (_ & _ & Hfu).
  pose proof (post_finished _ _ (Hex c st (le_n _))) as Hfin.
  by rewrite (Hfu _ st Hfin fuel), (Hfu _ st Hfin fuel').
Qed.
